(** * pybez: Bezier curve baking and the editable point model

    A shallow embedding of [pybez/api.py].

    Numbers.  The source computes on Python [int] and [float] values
    ([Number = Union[int, float]]).  Coordinates, ratios and margins are
    embedded as real numbers [R]: every arithmetic operator is the exact
    one, so rounding of floating-point operations is not part of this
    model.  Lengths, indices and the resolution are Python [int]s and are
    embedded as [Z].

    Exceptions.  Operations that can raise in Python ([assert] turned into
    [ValueError], indexing, unpacking, true division, [math.sqrt]) return a
    [result]; theorems that say "no error" are statements that the result
    is [Ok]. *)

From Stdlib Require Import Reals Lra Lia ZArith List String Bool Permutation.
Import ListNotations.

Open Scope Z_scope.

(** ** Exceptions and the error monad *)

Inductive exn : Type :=
| ValueError (msg : string)
| IndexError
| ZeroDivisionError.

Inductive result (A : Type) : Type :=
| Ok (a : A)
| Raise (e : exn).

Arguments Ok {A} a.
Arguments Raise {A} e.

Definition bind {A B : Type} (m : result A) (k : A -> result B) : result B :=
  match m with
  | Ok a => k a
  | Raise e => Raise e
  end.

Declare Scope py_scope.
Delimit Scope py_scope with py.
Notation "x <- m ;; k" := (bind m (fun x => k))
  (at level 61, m at next level, right associativity) : py_scope.
Notation "' pat <- m ;; k" := (bind m (fun x => match x with pat => k end))
  (at level 61, pat pattern, m at next level, right associativity) : py_scope.
Open Scope py_scope.

(** [try: assert c, msg / except AssertionError as e: raise ValueError( *e.args )] *)
Definition py_assert (c : bool) (msg : string) : result unit :=
  if c then Ok tt else Raise (ValueError msg).

(** ** Python sequences *)

Definition len {A : Type} (l : list A) : Z := Z.of_nat (List.length l).

(** [l[i]]: a negative index counts from the end; out of range raises. *)
Definition getitem {A : Type} (l : list A) (i : Z) : result A :=
  let j := if i <? 0 then i + len l else i in
  if j <? 0 then Raise IndexError
  else match nth_error l (Z.to_nat j) with
       | Some a => Ok a
       | None => Raise IndexError
       end.

(** Bound of a slice: negative counts from the end, then clamped. *)
Definition slice_bound {A : Type} (l : list A) (i : Z) : Z :=
  let j := if i <? 0 then i + len l else i in
  Z.min (Z.max j 0) (len l).

(** [l[start:stop]] *)
Definition slice {A : Type} (l : list A) (start stop : Z) : list A :=
  let a := slice_bound l start in
  let b := slice_bound l stop in
  firstn (Z.to_nat (b - a)) (skipn (Z.to_nat a) l).

(** [a, b, c, d = l] *)
Definition unpack4 {A : Type} (l : list A) : result (A * A * A * A) :=
  match l with
  | [a; b; c; d] => Ok (a, b, c, d)
  | _ :: _ :: _ :: _ :: _ :: _ => Raise (ValueError "too many values to unpack (expected 4)")
  | _ => Raise (ValueError "not enough values to unpack (expected 4)")
  end.

(** [range(n)] *)
Definition range (n : Z) : list Z := map Z.of_nat (seq 0 (Z.to_nat n)).

(** [enumerate(l)] *)
Definition enumerate {A : Type} (l : list A) : list (Z * A) :=
  combine (range (len l)) l.

(** [for x in xs: s = body(x, s)], where the body may raise. *)
Fixpoint for_each {X S : Type} (xs : list X) (body : X -> S -> result S) (s : S)
  : result S :=
  match xs with
  | [] => Ok s
  | x :: xs' => s' <- body x s ;; for_each xs' body s'
  end.

(** ** Constants and enums *)

(** [Number = Union[int, float]] and [Vec2], a pair of numbers. *)
Abbreviation Number := R (only parsing).
Definition Vec2 : Type := (Number * Number)%type.

Inductive BezierMode : Type := QUADRATIC | CUBIC.
Definition BM_QUADRATIC := QUADRATIC.
Definition BM_CUBIC := CUBIC.

Inductive PointMode : Type := CUSP | SMOOTH | SYMMETRICAL.
Definition PM_CUSP := CUSP.
Definition PM_SMOOTH := SMOOTH.
Definition PM_SYMMETRICAL := SYMMETRICAL.

Inductive PointType : Type := POSITION | CTRL_BEGIN | CTRL_END.
Definition PT_POSITION := POSITION.
Definition PT_CTRL_BEGIN := CTRL_BEGIN.
Definition PT_CTRL_END := CTRL_END.

Definition PointType_eqb (a b : PointType) : bool :=
  match a, b with
  | POSITION, POSITION | CTRL_BEGIN, CTRL_BEGIN | CTRL_END, CTRL_END => true
  | _, _ => false
  end.

(** ** Number operations *)

Open Scope R_scope.

(** [a / b] on numbers: true division, raising on a zero divisor. *)
Definition truediv (a b : Number) : result Number :=
  if Req_dec_T b 0 then Raise ZeroDivisionError else Ok (a / b).

(** [math.sqrt(x)]: raises [ValueError] on a negative argument. *)
Definition math_sqrt (x : Number) : result Number :=
  if Rlt_dec x 0 then Raise (ValueError "math domain error") else Ok (sqrt x).

(** [a > b] *)
Definition Rgtb (a b : Number) : bool := if Rlt_dec b a then true else false.

(** [a != b] *)
Definition Rneb (a b : Number) : bool := if Req_dec_T a b then false else true.

(** ** Internal API: vector helpers *)

Definition opposite (p : Vec2) : Vec2 := (- fst p, - snd p).

Definition length (p : Vec2) : result Number :=
  math_sqrt (fst p ^ 2 + snd p ^ 2).

Definition normal (p : Vec2) (scale : Number) : result Vec2 :=
  point_length <- length p ;;
  if Rneb point_length 0 then
    qx <- truediv (fst p) point_length ;;
    qy <- truediv (snd p) point_length ;;
    Ok (qx * scale, qy * scale)
  else Ok (0, 0).

(** The [int] branch of [cubic_segments]; [cubic] calls it on [len(points)]. *)
Definition cubic_segments (x : Z) : Z :=
  if (x <? 4)%Z then 0%Z else ((x - 4) / 3 + 1)%Z.

Definition lerp (a b r : Number) : Number := a + (b - a) * r.

Definition lerp2 (a b : Vec2) (r : Number) : Vec2 :=
  (fst a + (fst b - fst a) * r, snd a + (snd b - snd a) * r).

(** ** Public API: the curve bakers

    Both bakers name the inner loop variable [n], which shadows the point
    count; the count is not read again after [steps] is computed, so the
    embedding binds the loop variable to [_].  The ratio [r] is reset to
    [0.0] at the start of every segment and grows by [incr] after each
    sample, as in the source. *)

Definition quadratic (points : list Vec2) (resolution : Z) : result (list Vec2) :=
  let n := len points in
  _ <- py_assert (n mod 2 =? 1)%Z "An odd number of points must be provided." ;;
  _ <- py_assert (3 <=? resolution)%Z "Resolution is too low." ;;
  _ <- py_assert (3 <=? n)%Z "Number of points is too low." ;;
  let steps := ((n - 1) / 2)%Z in
  incr <- truediv 1 (IZR resolution) ;;
  result <- for_each (range steps) (fun step result =>
    let i := (step * 2)%Z in
    '(_, result) <- for_each (range resolution) (fun _ '(r, result) =>
      p0 <- getitem points i ;;
      p1 <- getitem points (i + 1)%Z ;;
      let la := lerp2 p0 p1 r in
      p1' <- getitem points (i + 1)%Z ;;
      p2 <- getitem points (i + 2)%Z ;;
      let lb := lerp2 p1' p2 r in
      Ok (r + incr, result ++ [lerp2 la lb r])) (0, result) ;;
    Ok result) [] ;;
  last_point <- getitem points (-1)%Z ;;
  Ok (result ++ [last_point]).

Definition cubic (points : list Vec2) (resolution : Z) : result (list Vec2) :=
  let n := len points in
  _ <- py_assert (4 <=? n)%Z "Number of points is too low." ;;
  _ <- py_assert ((n - 4) mod 3 =? 0)%Z "Too many or too few points provided." ;;
  _ <- py_assert (3 <=? resolution)%Z "Resolution is too low." ;;
  let steps := cubic_segments n in
  incr <- truediv 1 (IZR resolution) ;;
  result <- for_each (range steps) (fun step result =>
    let s := (step * 3)%Z in
    '(a, b, c, d) <- unpack4 (slice points s (s + 4)%Z) ;;
    '(_, result) <- for_each (range resolution) (fun _ '(r, result) =>
      let e := lerp2 a b r in
      let f := lerp2 b c r in
      let g := lerp2 c d r in
      let h := lerp2 e f r in
      let i := lerp2 f g r in
      Ok (r + incr, result ++ [lerp2 h i r])) (0, result) ;;
    Ok result) [] ;;
  last_point <- getitem points (-1)%Z ;;
  Ok (result ++ [last_point]).

(** ** class Point *)

Record Point : Type := mkPoint {
  pos : Vec2;
  begin : Vec2;
  end_ : Vec2;
  mode : PointMode
}.

(** [Point.__init__(x, y, dist)] *)
Definition Point_init (x y dist : Number) : Point :=
  {| pos := (x, y);
     begin := (x + dist, y);
     end_ := (x - dist, y);
     mode := PM_SYMMETRICAL |}.

(** The loop of [Point.find_point] over the enumerated triple of parts. *)
Fixpoint find_point_loop (parts : list (PointType * Vec2)) (location : Vec2)
    (margin : Number) : option (PointType * Vec2) :=
  match parts with
  | [] => None
  | (ty, p) :: rest =>
      let '(x, y) := location in
      let '(px, py) := p in
      let ox := x - px in
      let oy := y - py in
      if Rgtb (Rabs ox) margin || Rgtb (Rabs oy) margin
      then find_point_loop rest location margin
      else Some (ty, (ox, oy))
  end.

Definition Point_find_point (self : Point) (location : Vec2) (margin : Number)
  : option (PointType * Vec2) :=
  find_point_loop
    [(PT_POSITION, pos self); (PT_CTRL_BEGIN, begin self); (PT_CTRL_END, end_ self)]
    location margin.

Definition PointMode_eqb (a b : PointMode) : bool :=
  match a, b with
  | CUSP, CUSP | SMOOTH, SMOOTH | SYMMETRICAL, SYMMETRICAL => true
  | _, _ => false
  end.

(** [Point.move_point]: the method mutates [self]; the embedding returns the
    point after the call. *)
Definition Point_move_point (self : Point) (point_type : PointType)
    (position offset : Vec2) : result Point :=
  let '(x, y) := position in
  let '(ox, oy) := offset in
  let '(px, py) := pos self in
  let '(bx, by_) := begin self in
  let '(ex, ey) := end_ self in
  let '(dbx, dby) := (bx - px, by_ - py) in
  let '(dex, dey) := (ex - px, ey - py) in
  match point_type with
  | POSITION =>
      Ok {| pos := (ox + x, oy + y);
            begin := (ox + x + dbx, oy + y + dby);
            end_ := (ox + x + dex, oy + y + dey);
            mode := mode self |}
  | CTRL_BEGIN =>
      elen <- length (dex, dey) ;;
      let '(dbx, dby) := ((ox + x) - px, (oy + y) - py) in
      let self := {| pos := pos self; begin := (ox + x, oy + y);
                     end_ := end_ self; mode := mode self |} in
      if PointMode_eqb (mode self) PM_SMOOTH then
        '(ex, ey) <- normal (opposite (dbx, dby)) elen ;;
        Ok {| pos := pos self; begin := begin self;
              end_ := (px + ex, py + ey); mode := mode self |}
      else if PointMode_eqb (mode self) PM_SYMMETRICAL then
        let '(ex, ey) := opposite (dbx, dby) in
        Ok {| pos := pos self; begin := begin self;
              end_ := (px + ex, py + ey); mode := mode self |}
      else Ok self
  | CTRL_END =>
      let self := {| pos := pos self; begin := begin self;
                     end_ := (ox + x, oy + y); mode := mode self |} in
      blen <- length (dbx, dby) ;;
      let '(dex, dey) := ((ox + x) - px, (oy + y) - py) in
      let self := {| pos := pos self; begin := begin self;
                     end_ := (ox + x, oy + y); mode := mode self |} in
      if PointMode_eqb (mode self) PM_SMOOTH then
        '(bx, by_) <- normal (opposite (dex, dey)) blen ;;
        Ok {| pos := pos self; begin := (px + bx, py + by_);
              end_ := end_ self; mode := mode self |}
      else if PointMode_eqb (mode self) PM_SYMMETRICAL then
        let '(bx, by_) := opposite (dex, dey) in
        Ok {| pos := pos self; begin := (px + bx, py + by_);
              end_ := end_ self; mode := mode self |}
      else Ok self
  end.

(** The part of a point that a [PointType] names. *)
Definition part (self : Point) (ty : PointType) : Vec2 :=
  match ty with
  | POSITION => pos self
  | CTRL_BEGIN => begin self
  | CTRL_END => end_ self
  end.

(** ** class Bezier *)

Record Bezier : Type := mkBezier {
  _points : list Point;
  _is_cubic : bool
}.

Definition Bezier_init (mode : BezierMode) (points : list Point) : Bezier :=
  {| _points := points;
     _is_cubic := match mode with CUBIC => true | QUADRATIC => false end |}.

Definition Bezier_mode (self : Bezier) : BezierMode :=
  if _is_cubic self then BM_CUBIC else BM_QUADRATIC.

Definition Bezier_set_mode (self : Bezier) (value : BezierMode) : Bezier :=
  {| _points := _points self;
     _is_cubic := match value with CUBIC => true | QUADRATIC => false end |}.

Definition Bezier_add_point (self : Bezier) (x y dist : Number) : Bezier :=
  {| _points := _points self ++ [Point_init x y dist];
     _is_cubic := _is_cubic self |}.

(** The loop of [Bezier.find_point] over [enumerate(self._points)]. *)
Fixpoint Bezier_find_point_loop (is_cubic : bool) (items : list (Z * Point))
    (location : Vec2) (margin : Number) : option (Z * PointType * Vec2) :=
  match items with
  | [] => None
  | (i, p) :: rest =>
      match Point_find_point p location margin with
      | Some (pty, ofs) =>
          if negb is_cubic && PointType_eqb pty PT_CTRL_END
          then Bezier_find_point_loop is_cubic rest location margin
          else Some (i, pty, ofs)
      | None => Bezier_find_point_loop is_cubic rest location margin
      end
  end.

Definition Bezier_find_point (self : Bezier) (location : Vec2) (margin : Number)
  : option (Z * PointType * Vec2) :=
  Bezier_find_point_loop (_is_cubic self) (enumerate (_points self)) location margin.

Definition Bezier_bake_points (self : Bezier) : list Vec2 :=
  let last := (len (_points self) - 1)%Z in
  if _is_cubic self then
    fold_left (fun points '(i, point) =>
      if (i =? 0)%Z then points ++ [pos point; begin point]
      else if (i =? last)%Z then points ++ [end_ point; pos point]
      else points ++ [end_ point; pos point; begin point])
      (enumerate (_points self)) []
  else
    fold_left (fun points '(i, point) =>
      if (i =? last)%Z then points ++ [pos point]
      else points ++ [pos point; begin point])
      (enumerate (_points self)) [].

Definition Bezier_bake_curve (self : Bezier) (resolution : Z) : result (list Vec2) :=
  let points := Bezier_bake_points self in
  if _is_cubic self then cubic points resolution
  else quadratic points resolution.

(** ** The rest of the module *)

(** The argument of [cubic_segments]: an [int], an object with a length, or
    an object on which [len] raises [TypeError]. *)
Inductive count_or_sequence (A : Type) : Type :=
| a_count (n : Z)
| a_sequence (l : list A)
| unsized.

Arguments a_count {A} n.
Arguments a_sequence {A} l.
Arguments unsized {A}.

(** [cubic_segments] on any argument: a sequence is replaced by its length,
    and [0] is returned when the length cannot be taken. *)
Definition cubic_segments_of {A : Type} (x : count_or_sequence A) : Z :=
  match x with
  | a_count n => cubic_segments n
  | a_sequence l => cubic_segments (len l)
  | unsized => 0%Z
  end.

(** [Bezier.__getitem__] with an integer key. *)
Definition Bezier_getitem (self : Bezier) (key : Z) : result Point :=
  getitem (_points self) key.

Definition Bezier_bake_control_points (self : Bezier) : list Vec2 :=
  let last := (len (_points self) - 1)%Z in
  if _is_cubic self then
    fold_left (fun points '(i, point) =>
      if (i =? 0)%Z then points ++ [begin point]
      else if (i =? last)%Z then points ++ [end_ point]
      else points ++ [end_ point; begin point])
      (enumerate (_points self)) []
  else
    fold_left (fun points '(i, point) =>
      if negb (i =? last)%Z then points ++ [begin point] else points)
      (enumerate (_points self)) [].

Definition Bezier_bake_control_lines (self : Bezier) : list (Vec2 * Vec2) :=
  let last := (len (_points self) - 1)%Z in
  if _is_cubic self then
    fold_left (fun points '(i, point) =>
      if (i =? 0)%Z then points ++ [(pos point, begin point)]
      else if (i =? last)%Z then points ++ [(pos point, end_ point)]
      else (points ++ [(pos point, begin point)]) ++ [(pos point, end_ point)])
      (enumerate (_points self)) []
  else
    fold_left (fun points '(i, point) =>
      if negb (i =? last)%Z then points ++ [(pos point, begin point)] else points)
      (enumerate (_points self)) [].

Definition Bezier_bake_pos_points (self : Bezier) : list Vec2 :=
  fold_left (fun points point => points ++ [pos point]) (_points self) [].

(** ** examples/pygame_example.py: the event loop of [abstracted]

    The demo waits for a pygame event, updates its variables, bakes the
    curve again when [update_curve] is set, and draws.  The embedding keeps
    the variables and the calls into [pybez]; the event is a value of
    [Event] carrying the fields the loop reads ([ev.key], [ev.y],
    [ev.pos]), and the drawing calls, which read the state and write only
    to the display, are left out. *)

Inductive Key : Type := K_ESCAPE | K_q | K_c | K_1 | K_2 | K_3 | K_other.

Inductive Event : Type :=
| QUIT
| KEYDOWN (key : Key)
| MOUSEWHEEL (y : Z)
| MOUSEMOTION (ev_pos : Vec2)
| MOUSEBUTTONDOWN
| MOUSEBUTTONUP
| OTHER_EVENT.

(** The variables of [abstracted]. *)
Record Demo : Type := mkDemo {
  st_done : bool;
  st_bezier : Bezier;
  st_resolution : Z;
  st_curve : list Vec2;
  st_dragging : bool;
  st_pt_index : Z;
  st_pt_last : Z;
  st_pt_type : PointType;
  st_offset : option Vec2;
  st_update : bool;
  st_update_curve : bool
}.

(** The list [l] after [l[n]] was replaced by [x]. *)
Fixpoint replace_nth {A : Type} (n : nat) (l : list A) (x : A) : list A :=
  match l, n with
  | [], _ => []
  | _ :: t, O => x :: t
  | h :: t, S n' => h :: replace_nth n' t x
  end.

(** [l[i].method(...)] for a method that mutates the element in place: the
    look-up may raise, the method may raise, and the list afterwards holds
    the mutated element at the same place. *)
Definition with_item {A : Type} (l : list A) (i : Z) (method : A -> result A)
  : result (list A) :=
  x <- getitem l i ;;
  x' <- method x ;;
  Ok (replace_nth (Z.to_nat (if (i <? 0)%Z then (i + len l)%Z else i)) l x').

(** [bezier[i].method(...)] *)
Definition with_point (b : Bezier) (i : Z) (method : Point -> result Point)
  : result Bezier :=
  pts <- with_item (_points b) i method ;;
  Ok {| _points := pts; _is_cubic := _is_cubic b |}.

(** [point.mode = m] *)
Definition set_point_mode (m : PointMode) (p : Point) : result Point :=
  Ok {| pos := pos p; begin := begin p; end_ := end_ p; mode := m |}.

(** The [if ev.type == ... elif ...] chain of the loop body. *)
Definition abstracted_event (st : Demo) (ev : Event) : result Demo :=
  let '(mkDemo done bezier resolution curve dragging pt_index pt_last pt_type
               offset update update_curve) := st in
  match ev with
  | QUIT =>
      Ok (mkDemo true bezier resolution curve dragging pt_index pt_last pt_type
                 offset update update_curve)
  | KEYDOWN K_ESCAPE =>
      Ok (mkDemo true bezier resolution curve dragging pt_index pt_last pt_type
                 offset update update_curve)
  | KEYDOWN K_q =>
      match Bezier_mode bezier with
      | CUBIC =>
          Ok (mkDemo done (Bezier_set_mode bezier QUADRATIC) resolution curve dragging
                     pt_index pt_last pt_type offset true true)
      | QUADRATIC => Ok st
      end
  | KEYDOWN K_c =>
      match Bezier_mode bezier with
      | QUADRATIC =>
          Ok (mkDemo done (Bezier_set_mode bezier CUBIC) resolution curve dragging
                     pt_index pt_last pt_type offset true true)
      | CUBIC => Ok st
      end
  | KEYDOWN K_1 =>
      if (0 <=? pt_last)%Z then
        bezier' <- with_point bezier pt_last (set_point_mode CUSP) ;;
        Ok (mkDemo done bezier' resolution curve dragging pt_index pt_last pt_type
                   offset update update_curve)
      else Ok st
  | KEYDOWN K_2 =>
      if (0 <=? pt_last)%Z then
        bezier' <- with_point bezier pt_last (set_point_mode SMOOTH) ;;
        Ok (mkDemo done bezier' resolution curve dragging pt_index pt_last pt_type
                   offset update update_curve)
      else Ok st
  | KEYDOWN K_3 =>
      if (0 <=? pt_last)%Z then
        bezier' <- with_point bezier pt_last (set_point_mode SYMMETRICAL) ;;
        Ok (mkDemo done bezier' resolution curve dragging pt_index pt_last pt_type
                   offset update update_curve)
      else Ok st
  | KEYDOWN K_other => Ok st
  | MOUSEWHEEL y =>
      Ok (mkDemo done bezier (Z.max 3 (resolution + y)) curve dragging pt_index
                 pt_last pt_type offset update true)
  | MOUSEMOTION ev_pos =>
      if negb dragging then
        match Bezier_find_point bezier ev_pos 3 with
        | Some (i, ty, ofs) =>
            Ok (mkDemo done bezier resolution curve dragging i pt_last ty
                       (Some ofs) update update_curve)
        | None =>
            Ok (mkDemo done bezier resolution curve dragging (-1) pt_last pt_type
                       None update update_curve)
        end
      else
        match offset with
        | Some (ox, oy) =>
            if (0 <=? pt_index)%Z then
              let '(mx, my) := ev_pos in
              let pt := (mx + ox, my + oy) in
              bezier' <- with_point bezier pt_index
                           (fun p => Point_move_point p pt_type pt (ox, oy)) ;;
              Ok (mkDemo done bezier' resolution curve dragging pt_index pt_last
                         pt_type offset true true)
            else Ok st
        | None => Ok st
        end
  | MOUSEBUTTONDOWN =>
      match offset with
      | Some _ =>
          if (0 <=? pt_index)%Z then
            Ok (mkDemo done bezier resolution curve true pt_index pt_index pt_type
                       offset true update_curve)
          else Ok st
      | None => Ok st
      end
  | MOUSEBUTTONUP =>
      Ok (mkDemo done bezier resolution curve false (-1) pt_last pt_type None true
                 update_curve)
  | OTHER_EVENT => Ok st
  end.

(** The end of the loop body: bake again when asked to, then clear the two
    flags when either was set. *)
Definition abstracted_refresh (st : Demo) : result Demo :=
  let '(mkDemo done bezier resolution curve dragging pt_index pt_last pt_type
               offset update update_curve) := st in
  curve' <- (if update_curve then Bezier_bake_curve bezier resolution else Ok curve) ;;
  if update || update_curve
  then Ok (mkDemo done bezier resolution curve' dragging pt_index pt_last pt_type
                  offset false false)
  else Ok (mkDemo done bezier resolution curve' dragging pt_index pt_last pt_type
                  offset update update_curve).

(** [while not done: ev = pg.event.wait(); ...] on the events that arrive. *)
Fixpoint abstracted_loop (st : Demo) (events : list Event) : result Demo :=
  match events with
  | [] => Ok st
  | ev :: rest =>
      if st_done st then Ok st
      else
        st1 <- abstracted_event st ev ;;
        st2 <- abstracted_refresh st1 ;;
        abstracted_loop st2 rest
  end.

(** [abstracted()]: four points in cubic mode, resolution 7, a first bake,
    then the loop. *)
Definition abstracted (events : list Event) : result Demo :=
  let bezier_size := 4%Z in
  let bezier :=
    Bezier_init CUBIC
      (map (fun i => Point_init (IZR (20 + i * (600 / bezier_size))) 240 10)
           (range bezier_size)) in
  let resolution := 7%Z in
  curve <- Bezier_bake_curve bezier resolution ;;
  abstracted_loop
    (mkDemo false bezier resolution curve false (-1) (-1) PT_POSITION None false false)
    events.

(** ** Vocabulary of the statements *)

(** Displacement of [a] from [b]. *)
Definition vsub (a b : Vec2) : Vec2 := (fst a - fst b, snd a - snd b).

Definition vadd (a b : Vec2) : Vec2 := (fst a + fst b, snd a + snd b).

Definition vscale (k : Number) (v : Vec2) : Vec2 := (k * fst v, k * snd v).

(** Euclidean norm, the value [length] returns. *)
Definition norm (v : Vec2) : Number := sqrt (fst v ^ 2 + snd v ^ 2).

(** De Casteljau evaluation by pairwise [lerp2], degree 2 and degree 3. *)
Definition de_casteljau2 (p0 p1 p2 : Vec2) (r : Number) : Vec2 :=
  lerp2 (lerp2 p0 p1 r) (lerp2 p1 p2 r) r.

Definition de_casteljau3 (a b c d : Vec2) (r : Number) : Vec2 :=
  lerp2 (lerp2 (lerp2 a b r) (lerp2 b c r) r)
        (lerp2 (lerp2 b c r) (lerp2 c d r) r) r.

(** Linear interpolation as the specification words it, [a + (b - a) * r]
    on each coordinate.  It is written out here in full and does not call
    the module's [lerp2]. *)
Definition interpolate (a b : Vec2) (r : Number) : Vec2 :=
  (fst a + (fst b - fst a) * r, snd a + (snd b - snd a) * r).

(** De Casteljau evaluation of a quadratic segment (two levels of pairwise
    interpolation, 3 points to 2 to 1) and of a cubic segment (three levels,
    4 points to 3 to 2 to 1). *)
Definition casteljau_quadratic (p0 p1 p2 : Vec2) (r : Number) : Vec2 :=
  interpolate (interpolate p0 p1 r) (interpolate p1 p2 r) r.

Definition casteljau_cubic (a b c d : Vec2) (r : Number) : Vec2 :=
  interpolate
    (interpolate (interpolate a b r) (interpolate b c r) r)
    (interpolate (interpolate b c r) (interpolate c d r) r) r.

(** The point of the quadratic and of the cubic Bezier curve at ratio [r],
    in Bernstein form. *)
Definition bernstein_quadratic (p0 p1 p2 : Vec2) (r : Number) : Vec2 :=
  ((1 - r) ^ 2 * fst p0 + 2 * (1 - r) * r * fst p1 + r ^ 2 * fst p2,
   (1 - r) ^ 2 * snd p0 + 2 * (1 - r) * r * snd p1 + r ^ 2 * snd p2).

Definition bernstein_cubic (a b c d : Vec2) (r : Number) : Vec2 :=
  ((1 - r) ^ 3 * fst a + 3 * (1 - r) ^ 2 * r * fst b
   + 3 * (1 - r) * r ^ 2 * fst c + r ^ 3 * fst d,
   (1 - r) ^ 3 * snd a + 3 * (1 - r) ^ 2 * r * snd b
   + 3 * (1 - r) * r ^ 2 * snd c + r ^ 3 * snd d).

(** The points one run of the inner loop appends: [k] values of [f], at
    the ratios [r], [r + incr], [r + incr + incr], ... *)
Fixpoint samples (f : Number -> Vec2) (incr : Number) (k : nat) (r : Number)
  : list Vec2 :=
  match k with
  | O => []
  | S k' => f r :: samples f incr k' (r + incr)
  end.

(** Default of the total look-ups [nth] and [last] in the statements. *)
Definition origin : Vec2 := (0, 0).

(** [points[i]] for an index that is in range. *)
Definition point_at (points : list Vec2) (i : nat) : Vec2 := nth i points origin.

(** The control points of segment [step] of a quadratic and of a cubic
    control polygon. *)
Definition quadratic_segment (points : list Vec2) (step : nat) (r : Number) : Vec2 :=
  de_casteljau2 (point_at points (2 * step)) (point_at points (2 * step + 1))
                (point_at points (2 * step + 2)) r.

Definition cubic_segment (points : list Vec2) (step : nat) (r : Number) : Vec2 :=
  de_casteljau3 (point_at points (3 * step)) (point_at points (3 * step + 1))
                (point_at points (3 * step + 2)) (point_at points (3 * step + 3)) r.

(** [enumerate(l)] from its element number [a] on. *)
Definition enumerate_from {A : Type} (a : nat) (l : list A) : list (Z * A) :=
  combine (map Z.of_nat (seq a (List.length l))) l.

(** A point that the quadratic hit-test passes over: no part of it is
    within the margin, or the part that is hit is its [end] handle. *)
Definition passed_over (location : Vec2) (margin : Number) (p : Point) : Prop :=
  Point_find_point p location margin = None \/
  exists ofs : Vec2, Point_find_point p location margin = Some (PT_CTRL_END, ofs).

(** The inputs on which the bakers raise. *)
Definition quadratic_invalid (n resolution : Z) : Prop :=
  (n mod 2 = 0 \/ n < 3 \/ resolution < 3)%Z.

Definition cubic_invalid (n resolution : Z) : Prop :=
  (n < 4 \/ (n - 4) mod 3 <> 0 \/ resolution < 3)%Z.

(** The sibling of a handle. *)
Definition sibling (ty : PointType) : PointType :=
  match ty with
  | POSITION => POSITION
  | CTRL_BEGIN => CTRL_END
  | CTRL_END => CTRL_BEGIN
  end.

Definition is_handle (ty : PointType) : Prop := ty = CTRL_BEGIN \/ ty = CTRL_END.

(** ** Concrete inputs *)

(** The control polygons of the spec's two scenarios. *)
Definition quadratic_example : list Vec2 := [(0, 0); (5, 10); (10, 0)].

Definition cubic_example : list Vec2 := [(0, 0); (0, 10); (10, 10); (10, 0)].

(** [Point(0, 0)] with its default handles, in a given mode. *)
Definition anchor_example (m : PointMode) : Point :=
  {| pos := (0, 0); begin := (10, 0); end_ := (-10, 0); mode := m |}.

(** A second point, whose anchor lies on the [end] handle of the first. *)
Definition second_example : Point :=
  {| pos := (-10, 0); begin := (0, 10); end_ := (-20, 0); mode := PM_SYMMETRICAL |}.

Definition curve_example (m : BezierMode) : Bezier :=
  Bezier_init m [anchor_example PM_SYMMETRICAL; second_example].

(** The four points the demo starts with. *)
Definition demo_example : Bezier :=
  Bezier_init BM_CUBIC
    [Point_init 20 240 10; Point_init 170 240 10;
     Point_init 320 240 10; Point_init 470 240 10].

(** ** Vocabulary of the further statements *)

(** A part at [q] is within [margin] of [location] on both axes. *)
Definition within (location : Vec2) (margin : Number) (q : Vec2) : Prop :=
  Rabs (fst location - fst q) <= margin /\ Rabs (snd location - snd q) <= margin.

(** The two handles are mirror images of each other about the anchor. *)
Definition mirrored (p : Point) : Prop :=
  vsub (begin p) (pos p) = opposite (vsub (end_ p) (pos p)).

(** A sequence of [move_point] calls on one point. *)
Definition run_moves (p : Point) (moves : list (PointType * Vec2 * Vec2))
  : result Point :=
  for_each moves (fun '(ty, position, offset) self =>
                    Point_move_point self ty position offset) p.

(** A point over which the search of [Bezier.find_point] goes on: in cubic
    mode one with no part within the margin, in quadratic mode also one
    whose hit part is its [end] handle. *)
Definition skipped (is_cubic : bool) (location : Vec2) (margin : Number)
    (p : Point) : Prop :=
  if is_cubic then Point_find_point p location margin = None
  else passed_over location margin p.

(** What one enumerated point contributes to [bake_points], to
    [bake_control_points] and to [bake_control_lines]. *)
Definition baked_items (is_cubic : bool) (last : Z) (item : Z * Point) : list Vec2 :=
  let '(i, point) := item in
  if is_cubic then
    if (i =? 0)%Z then [pos point; begin point]
    else if (i =? last)%Z then [end_ point; pos point]
    else [end_ point; pos point; begin point]
  else
    if (i =? last)%Z then [pos point] else [pos point; begin point].

Definition control_items (is_cubic : bool) (last : Z) (item : Z * Point) : list Vec2 :=
  let '(i, point) := item in
  if is_cubic then
    if (i =? 0)%Z then [begin point]
    else if (i =? last)%Z then [end_ point]
    else [end_ point; begin point]
  else
    if negb (i =? last)%Z then [begin point] else [].

Definition line_items (is_cubic : bool) (last : Z) (item : Z * Point)
  : list (Vec2 * Vec2) :=
  let '(i, point) := item in
  if is_cubic then
    if (i =? 0)%Z then [(pos point, begin point)]
    else if (i =? last)%Z then [(pos point, end_ point)]
    else [(pos point, begin point); (pos point, end_ point)]
  else
    if negb (i =? last)%Z then [(pos point, begin point)] else [].

(** An affine map of the plane: a linear map with matrix rows [(a, b)] and
    [(c, d)], followed by the translation by [t]. *)
Definition affine (a b c d : Number) (t : Vec2) (v : Vec2) : Vec2 :=
  (a * fst v + b * snd v + fst t, c * fst v + d * snd v + snd t).

(** The result of a baker with a map applied to every point of the output. *)
Definition map_result (f : Vec2 -> Vec2) (r : result (list Vec2)) : result (list Vec2) :=
  match r with
  | Ok out => Ok (map f out)
  | Raise e => Raise e
  end.

(** A point lies in the axis-aligned box with corners [lo] and [hi]. *)
Definition in_box (lo hi : Vec2) (v : Vec2) : Prop :=
  fst lo <= fst v <= fst hi /\ snd lo <= snd v <= snd hi.

(** Two points with the same anchor and the same handles. *)
Definition same_shape (p q : Point) : Prop :=
  pos p = pos q /\ begin p = begin q /\ end_ p = end_ q.

(** What holds of the variables of [abstracted] in the middle of a loop
    body, after the event was handled: the curve still has its four points,
    the resolution is at least 3, the two indices are below 4, and the
    stored curve is the bake of the current state unless a new bake is
    pending. *)
Definition abstracted_pending (st : Demo) : Prop :=
  len (_points (st_bezier st)) = 4%Z /\
  (3 <= st_resolution st)%Z /\
  (st_pt_index st < 4)%Z /\
  (st_pt_last st < 4)%Z /\
  (st_update_curve st = false ->
   Bezier_bake_curve (st_bezier st) (st_resolution st) = Ok (st_curve st)).

(** What holds of the variables of [abstracted] between two loop bodies. *)
Definition abstracted_invariant (st : Demo) : Prop :=
  len (_points (st_bezier st)) = 4%Z /\
  (3 <= st_resolution st)%Z /\
  (st_pt_index st < 4)%Z /\
  (st_pt_last st < 4)%Z /\
  Bezier_bake_curve (st_bezier st) (st_resolution st) = Ok (st_curve st) /\
  st_update st = false /\
  st_update_curve st = false.

(** The point of a curve at an index that is in range. *)
Definition curve_point (b : Bezier) (i : nat) : Point :=
  nth i (_points b) (Point_init 0 0 10).

(** ** Vector helpers *)

Lemma sumsq_nonneg (x y : R) : 0 <= x ^ 2 + y ^ 2.
Proof. nra. Qed.

Lemma math_sqrt_nonneg (x : R) : 0 <= x -> math_sqrt x = Ok (sqrt x).
Proof.
  intros Hx. unfold math_sqrt. destruct (Rlt_dec x 0) as [Hlt | _]; [lra | reflexivity].
Qed.

Lemma length_norm (p : Vec2) : length p = Ok (norm p).
Proof. unfold length, norm. apply math_sqrt_nonneg, sumsq_nonneg. Qed.

Lemma norm_nonneg (p : Vec2) : 0 <= norm p.
Proof. apply sqrt_pos. Qed.

Lemma norm_zero_iff (p : Vec2) : norm p = 0 <-> p = (0, 0).
Proof.
  destruct p as [x y]. unfold norm. simpl fst. simpl snd. split.
  - intros H. apply sqrt_eq_0 in H; [| apply sumsq_nonneg].
    assert (x = 0) by nra. assert (y = 0) by nra. subst. reflexivity.
  - intros H. inversion H. subst.
    replace (0 ^ 2 + 0 ^ 2) with 0 by ring. apply sqrt_0.
Qed.

Lemma norm_vscale (k : R) (v : Vec2) : norm (vscale k v) = Rabs k * norm v.
Proof.
  destruct v as [x y]. unfold norm, vscale. simpl fst. simpl snd.
  replace ((k * x) ^ 2 + (k * y) ^ 2) with (k ^ 2 * (x ^ 2 + y ^ 2)) by ring.
  rewrite sqrt_mult; [| nra | apply sumsq_nonneg].
  f_equal. replace (k ^ 2) with (Rsqr k) by (unfold Rsqr; ring). apply sqrt_Rsqr_abs.
Qed.

Lemma norm_opposite (v : Vec2) : norm (opposite v) = norm v.
Proof.
  destruct v as [x y]. unfold norm, opposite. simpl fst. simpl snd.
  f_equal. ring.
Qed.

Lemma Rneb_true (a b : R) : a <> b -> Rneb a b = true.
Proof. intros H. unfold Rneb. destruct (Req_dec_T a b); [contradiction | reflexivity]. Qed.

Lemma Rneb_refl (a : R) : Rneb a a = false.
Proof. unfold Rneb. destruct (Req_dec_T a a); [reflexivity | contradiction]. Qed.

Lemma truediv_nonzero (a b : R) : b <> 0 -> truediv a b = Ok (a / b).
Proof. intros H. unfold truediv. destruct (Req_dec_T b 0); [contradiction | reflexivity]. Qed.

(** [normal] never raises: on a vector of nonzero length it returns the
    vector times [scale / length]; on a vector of length zero it returns
    the zero vector, and no division is run. *)
Lemma normal_nonzero (v : Vec2) (s : R) :
  norm v <> 0 -> normal v s = Ok (fst v / norm v * s, snd v / norm v * s).
Proof.
  intros H. unfold normal. rewrite length_norm. simpl bind.
  rewrite (Rneb_true _ _ H), !(truediv_nonzero _ _ H). reflexivity.
Qed.

Lemma normal_zero (v : Vec2) (s : R) : norm v = 0 -> normal v s = Ok (0, 0).
Proof.
  intros H. unfold normal. rewrite length_norm. simpl bind.
  rewrite H, Rneb_refl. reflexivity.
Qed.

Lemma normal_norm (v : Vec2) (s : R) :
  norm v <> 0 -> norm (fst v / norm v * s, snd v / norm v * s) = Rabs s.
Proof.
  intros H.
  replace (fst v / norm v * s, snd v / norm v * s) with (vscale (s / norm v) v)
    by (unfold vscale; f_equal; field; exact H).
  rewrite norm_vscale. unfold Rdiv. rewrite Rabs_mult, Rabs_inv.
  rewrite (Rabs_pos_eq (norm v)) by apply norm_nonneg.
  field. exact H.
Qed.

(** C8, amended.  [normal(v, s)] (the spec's [normalize]) never raises.
    [length(v)] is the Euclidean norm [sqrt (x^2 + y^2)], written out in
    [norm].  When it is not zero, [normal(v, s)] is [v] multiplied by
    [s / norm v], a vector whose norm is [|s|], hence [s] for [s >= 0].
    When it is zero the guard skips the division and the result is the
    zero vector; in particular [normal((0,0), 5) = (0,0)]. *)
Theorem normal_scaled_or_zero :
  forall (v : Vec2) (s : Number),
    length v = Ok (norm v) /\
    (norm v <> 0 ->
       normal v s = Ok (vscale (s / norm v) v) /\
       norm (vscale (s / norm v) v) = Rabs s /\
       (0 <= s -> norm (vscale (s / norm v) v) = s)) /\
    (norm v = 0 -> normal v s = Ok (0, 0)) /\
    normal (0, 0) 5 = Ok (0, 0).
Proof.
  intros v s. split; [apply length_norm |].
  split; [| split].
  - intros Hl.
    assert (Hv : vscale (s / norm v) v = (fst v / norm v * s, snd v / norm v * s))
      by (unfold vscale; f_equal; field; exact Hl).
    rewrite Hv, normal_norm by exact Hl.
    split; [apply normal_nonzero; exact Hl |].
    split; [reflexivity |].
    intros Hs. rewrite Rabs_pos_eq by exact Hs. reflexivity.
  - apply normal_zero.
  - apply normal_zero. apply norm_zero_iff. reflexivity.
Qed.

(** ** Moving a handle of a [Point] *)

Lemma vec_eq (a b c d : R) : a = c -> b = d -> (a, b) = (c, d).
Proof. intros -> ->. reflexivity. Qed.

Lemma norm_zero_components (x y : R) : x = 0 -> y = 0 -> norm (x, y) = 0.
Proof. intros -> ->. apply norm_zero_iff. reflexivity. Qed.

Lemma norm_nonzero (v : Vec2) : v <> (0, 0) -> norm v <> 0.
Proof. intros H Hn. apply H, norm_zero_iff, Hn. Qed.

Lemma opposite_nonzero (v : Vec2) : v <> (0, 0) -> opposite v <> (0, 0).
Proof.
  destruct v as [x y]. unfold opposite. simpl. intros H Ho. apply H.
  inversion Ho. apply vec_eq; lra.
Qed.

(** What [move_point] does to a handle in Smooth mode, when the moved handle
    does not land on the anchor. *)
Lemma move_smooth_nonzero (p : Point) (ty : PointType) (position offset : Vec2) :
  is_handle ty ->
  mode p = SMOOTH ->
  vsub (vadd offset position) (pos p) <> (0, 0) ->
  exists p' : Point,
    Point_move_point p ty position offset = Ok p' /\
    pos p' = pos p /\
    mode p' = mode p /\
    part p' ty = vadd offset position /\
    vsub (part p' (sibling ty)) (pos p') =
      vscale (norm (vsub (part p (sibling ty)) (pos p)) /
              norm (vsub (vadd offset position) (pos p)))
             (opposite (vsub (vadd offset position) (pos p))).
Proof.
  intros Hty Hmode Hd.
  destruct p as [[px py] [bx by_] [ex ey] m]. simpl in Hmode. subst m.
  destruct position as [x y]. destruct offset as [ox oy].
  unfold vsub, vadd in *. simpl fst in *. simpl snd in *.
  pose proof (norm_nonzero _ (opposite_nonzero _ Hd)) as Hn.
  pose proof (norm_nonzero _ Hd) as Hn'.
  destruct Hty as [-> | ->]; unfold Point_move_point; cbn [pos begin end_ mode];
    rewrite length_norm; cbn [bind PointMode_eqb PM_SMOOTH];
    rewrite (normal_nonzero _ _ Hn); cbn [bind];
    eexists; (split; [reflexivity |]);
    cbn [pos begin end_ mode part sibling fst snd];
    repeat split;
    rewrite norm_opposite; unfold vscale, opposite; cbn [fst snd];
    apply vec_eq; field; exact Hn'.
Qed.

(** What [move_point] does to a handle in Smooth mode, when the moved handle
    lands on the anchor. *)
Lemma move_smooth_zero (p : Point) (ty : PointType) (position offset : Vec2) :
  is_handle ty ->
  mode p = SMOOTH ->
  vadd offset position = pos p ->
  exists p' : Point,
    Point_move_point p ty position offset = Ok p' /\
    pos p' = pos p /\
    mode p' = mode p /\
    part p' ty = pos p /\
    part p' (sibling ty) = pos p.
Proof.
  intros Hty Hmode Hd.
  destruct p as [[px py] [bx by_] [ex ey] m]. simpl in Hmode. subst m.
  destruct position as [x y]. destruct offset as [ox oy].
  unfold vadd in Hd. simpl in Hd. inversion Hd as [[Hx Hy]].
  assert (Hn : norm (opposite (ox + x - (ox + x), oy + y - (oy + y))) = 0)
    by (apply norm_zero_components; simpl; lra).
  destruct Hty as [-> | ->]; unfold Point_move_point; cbn [pos begin end_ mode];
    rewrite length_norm; cbn [bind PointMode_eqb PM_SMOOTH];
    rewrite (normal_zero _ _ Hn); cbn [bind];
    eexists; (split; [reflexivity |]);
    cbn [pos begin end_ mode part sibling fst snd];
    repeat split; apply vec_eq; lra.
Qed.

(** What [move_point] does to a handle in Symmetrical mode. *)
Lemma move_symmetrical (p : Point) (ty : PointType) (position offset : Vec2) :
  is_handle ty ->
  mode p = SYMMETRICAL ->
  exists p' : Point,
    Point_move_point p ty position offset = Ok p' /\
    pos p' = pos p /\
    mode p' = mode p /\
    part p' ty = vadd offset position /\
    part p' (sibling ty) =
      vadd (pos p) (opposite (vsub (vadd offset position) (pos p))).
Proof.
  intros Hty Hmode.
  destruct p as [[px py] [bx by_] [ex ey] m]. simpl in Hmode. subst m.
  destruct position as [x y]. destruct offset as [ox oy].
  destruct Hty as [-> | ->]; unfold Point_move_point; cbn [pos begin end_ mode];
    rewrite length_norm; cbn [bind PointMode_eqb PM_SMOOTH PM_SYMMETRICAL];
    eexists; (split; [reflexivity |]);
    cbn [pos begin end_ mode part sibling fst snd];
    repeat split.
Qed.

Lemma normal_total (v : Vec2) (s : R) : exists w : Vec2, normal v s = Ok w.
Proof.
  destruct (Req_dec_T (norm v) 0) as [Hz | Hnz].
  - exists (0, 0). apply normal_zero, Hz.
  - eexists. apply normal_nonzero, Hnz.
Qed.

(** [move_point] never raises, and it puts the named part at
    [position + offset], in every mode. *)
Lemma move_point_part (p : Point) (ty : PointType) (position offset : Vec2) :
  exists p' : Point,
    Point_move_point p ty position offset = Ok p' /\
    part p' ty = vadd offset position.
Proof.
  destruct p as [[px py] [bx by_] [ex ey] m].
  destruct position as [x y]. destruct offset as [ox oy].
  destruct ty; unfold Point_move_point; cbn [pos begin end_ mode].
  - eexists. split; reflexivity.
  - rewrite length_norm. cbn [bind].
    destruct m; cbn [PointMode_eqb PM_SMOOTH PM_SYMMETRICAL].
    + eexists. split; reflexivity.
    + destruct (normal_total (opposite (ox + x - px, oy + y - py))
                  (norm (ex - px, ey - py))) as [[wx wy] Hw].
      rewrite Hw. cbn [bind]. eexists. split; reflexivity.
    + eexists. split; reflexivity.
  - rewrite length_norm. cbn [bind].
    destruct m; cbn [PointMode_eqb PM_SMOOTH PM_SYMMETRICAL].
    + eexists. split; reflexivity.
    + destruct (normal_total (opposite (ox + x - px, oy + y - py))
                  (norm (bx - px, by_ - py))) as [[wx wy] Hw].
      rewrite Hw. cbn [bind]. eexists. split; reflexivity.
    + eexists. split; reflexivity.
Qed.

(** ** Hit-testing a [Point] *)

Lemma Rgtb_false (a b : R) : a <= b -> Rgtb a b = false.
Proof. intros H. unfold Rgtb. destruct (Rlt_dec b a); [lra | reflexivity]. Qed.

Lemma Rgtb_false_inv (a b : R) : Rgtb a b = false -> a <= b.
Proof. unfold Rgtb. destruct (Rlt_dec b a); [discriminate | lra]. Qed.

Lemma Rgtb_true (a b : R) : b < a -> Rgtb a b = true.
Proof. intros H. unfold Rgtb. destruct (Rlt_dec b a); [reflexivity | lra]. Qed.

Lemma find_point_loop_hit (parts : list (PointType * Vec2)) (location : Vec2)
    (margin : R) (ty : PointType) (ofs : Vec2) :
  find_point_loop parts location margin = Some (ty, ofs) ->
  exists q : Vec2,
    In (ty, q) parts /\ ofs = vsub location q /\
    Rabs (fst ofs) <= margin /\ Rabs (snd ofs) <= margin.
Proof.
  destruct location as [x y].
  induction parts as [| [ty0 [qx qy]] rest IH]; simpl; [discriminate |].
  destruct (Rgtb (Rabs (x - qx)) margin) eqn:Hx; simpl.
  - intros H. destruct (IH H) as (q & Hin & Hq). exists q. split; [right |]; assumption.
  - destruct (Rgtb (Rabs (y - qy)) margin) eqn:Hy.
    + intros H. destruct (IH H) as (q & Hin & Hq). exists q. split; [right |]; assumption.
    + intros H. inversion H. subst. exists (qx, qy).
      split; [left; reflexivity |]. split; [reflexivity |].
      simpl. split; apply Rgtb_false_inv; assumption.
Qed.

(** The offset that [Point.find_point] returns is the hit location minus
    the part that was hit, and each coordinate of it is within the margin. *)
Lemma Point_find_point_offset (p : Point) (location : Vec2) (margin : R)
    (ty : PointType) (ofs : Vec2) :
  Point_find_point p location margin = Some (ty, ofs) ->
  ofs = vsub location (part p ty) /\
  Rabs (fst ofs) <= margin /\ Rabs (snd ofs) <= margin.
Proof.
  intros H. apply find_point_loop_hit in H. destruct H as (q & Hin & Hofs & Hm).
  split; [| exact Hm].
  simpl in Hin. destruct Hin as [Hq | [Hq | [Hq | []]]];
    inversion Hq; subst; reflexivity.
Qed.

(** A location within the margin of the anchor hits [PT_POSITION]. *)
Lemma Point_find_point_position (p : Point) (x y margin : R) :
  Rabs (x - fst (pos p)) <= margin ->
  Rabs (y - snd (pos p)) <= margin ->
  Point_find_point p (x, y) margin =
    Some (PT_POSITION, (x - fst (pos p), y - snd (pos p))).
Proof.
  intros Hx Hy. unfold Point_find_point. destruct (pos p) as [px py]. simpl in *.
  rewrite (Rgtb_false _ _ Hx), (Rgtb_false _ _ Hy). reflexivity.
Qed.

(** ** Loops of the bakers *)

Lemma range_length (n : Z) : List.length (range n) = Z.to_nat n.
Proof. unfold range. rewrite length_map, length_seq. reflexivity. Qed.

Lemma range_nth_error (n : Z) (i : nat) :
  (i < Z.to_nat n)%nat -> nth_error (range n) i = Some (Z.of_nat i).
Proof.
  intros H. unfold range. rewrite nth_error_map, nth_error_seq.
  destruct (Nat.ltb_spec i (Z.to_nat n)); [reflexivity | lia].
Qed.

Lemma range_In (n x : Z) : In x (range n) -> (0 <= x < n)%Z.
Proof.
  unfold range. rewrite in_map_iff. intros (k & <- & Hk).
  apply in_seq in Hk. lia.
Qed.

(** The inner loop: each iteration appends [f r] and adds [incr] to [r]. *)
Lemma for_each_inner {X : Type} (xs : list X)
    (body : X -> R * list Vec2 -> result (R * list Vec2))
    (f : R -> Vec2) (incr : R) :
  (forall x r acc, body x (r, acc) = Ok (r + incr, acc ++ [f r])) ->
  forall r acc,
    for_each xs body (r, acc) =
    Ok (r + INR (List.length xs) * incr, acc ++ samples f incr (List.length xs) r).
Proof.
  intros Hbody. induction xs as [| x xs IH]; intros r acc; simpl.
  - rewrite app_nil_r. do 2 f_equal. ring.
  - rewrite Hbody. cbn [bind]. rewrite IH, <- app_assoc. simpl app.
    do 2 f_equal. destruct (List.length xs); simpl; ring.
Qed.

(** The outer loop: each step appends one block. *)
Lemma for_each_outer {X : Type} (xs : list X)
    (body : X -> list Vec2 -> result (list Vec2)) (block : X -> list Vec2) :
  (forall x acc, In x xs -> body x acc = Ok (acc ++ block x)) ->
  forall acc, for_each xs body acc = Ok (acc ++ flat_map block xs).
Proof.
  induction xs as [| x xs IH]; intros Hbody acc; simpl.
  - rewrite app_nil_r. reflexivity.
  - rewrite Hbody by (left; reflexivity). cbn [bind].
    rewrite IH by (intros; apply Hbody; right; assumption).
    rewrite app_assoc. reflexivity.
Qed.

Lemma samples_length (f : R -> Vec2) (incr : R) (k : nat) (r : R) :
  List.length (samples f incr k r) = k.
Proof. revert r. induction k as [| k IH]; intros r; simpl; [| rewrite IH]; reflexivity. Qed.

Lemma samples_nth_error (f : R -> Vec2) (incr : R) (k : nat) :
  forall (r : R) (j : nat),
    (j < k)%nat -> nth_error (samples f incr k r) j = Some (f (r + INR j * incr)).
Proof.
  induction k as [| k IH]; intros r j Hj; [lia |].
  destruct j as [| j]; simpl samples; simpl nth_error.
  - do 2 f_equal. simpl. ring.
  - rewrite IH by lia. do 2 f_equal. rewrite S_INR. ring.
Qed.

(** Blocks of equal length laid end to end: element [j] of block [s] sits at
    index [s * m + j]. *)
Lemma flat_map_blocks_length {X A : Type} (block : X -> list A) (m : nat) (xs : list X) :
  (forall x, List.length (block x) = m) ->
  List.length (flat_map block xs) = (List.length xs * m)%nat.
Proof.
  intros Hm. induction xs as [| x xs IH]; simpl; [reflexivity |].
  rewrite length_app, Hm, IH. reflexivity.
Qed.

Lemma flat_map_blocks_nth_error {X A : Type} (block : X -> list A) (m : nat) :
  (forall x, List.length (block x) = m) ->
  forall (xs : list X) (s j : nat) (x : X),
    nth_error xs s = Some x -> (j < m)%nat ->
    nth_error (flat_map block xs) (s * m + j) = nth_error (block x) j.
Proof.
  intros Hm. induction xs as [| x0 xs IH]; intros s j x Hs Hj.
  - destruct s; discriminate.
  - destruct s as [| s]; simpl in Hs; simpl flat_map.
    + inversion Hs. subst. simpl. apply nth_error_app1. rewrite Hm. exact Hj.
    + rewrite nth_error_app2 by (rewrite Hm; simpl; lia).
      rewrite Hm. replace (S s * m + j - m)%nat with (s * m + j)%nat by (simpl; lia).
      apply IH; assumption.
Qed.

(** ** Indexing *)

Lemma getitem_in_range {A : Type} (l : list A) (i : nat) (d : A) :
  (i < List.length l)%nat -> getitem l (Z.of_nat i) = Ok (nth i l d).
Proof.
  intros H. unfold getitem.
  destruct (Z.ltb_spec (Z.of_nat i) 0) as [Hneg | _]; [lia |].
  destruct (Z.ltb_spec (Z.of_nat i) 0) as [Hneg | _]; [lia |].
  rewrite Nat2Z.id, (nth_error_nth' l d H). reflexivity.
Qed.

Lemma nth_last {A : Type} (l : list A) (d : A) :
  nth (List.length l - 1) l d = last l d.
Proof.
  induction l as [| a l IH]; [reflexivity |].
  destruct l as [| b l]; [reflexivity |].
  change (last (a :: b :: l) d) with (last (b :: l) d). rewrite <- IH.
  cbn [List.length Nat.sub]. rewrite ?Nat.sub_0_r. reflexivity.
Qed.

(** [l[-1]] on a non-empty list is its last element. *)
Lemma getitem_last {A : Type} (l : list A) (d : A) :
  l <> [] -> getitem l (-1)%Z = Ok (last l d).
Proof.
  intros Hl. assert (Hlen : (0 < List.length l)%nat)
    by (destruct l; [contradiction | simpl; lia]).
  unfold getitem, len. cbn [Z.ltb Z.compare].
  destruct (Z.ltb_spec (-1 + Z.of_nat (List.length l)) 0) as [Hneg | _]; [lia |].
  replace (Z.to_nat (-1 + Z.of_nat (List.length l))) with (List.length l - 1)%nat by lia.
  rewrite (nth_error_nth' l d) by lia. rewrite nth_last. reflexivity.
Qed.

Lemma firstn4_skipn {A : Type} (d : A) :
  forall (s : nat) (l : list A),
    (s + 4 <= List.length l)%nat ->
    firstn 4 (skipn s l) =
    [nth s l d; nth (s + 1) l d; nth (s + 2) l d; nth (s + 3) l d].
Proof.
  induction s as [| s IH]; intros l H.
  - destruct l as [| a [| b [| c [| e l]]]]; simpl in H; try lia. reflexivity.
  - destruct l as [| a l]; simpl in H; [lia |]. simpl. apply IH. lia.
Qed.

(** [l[s:s+4]] holds the four elements from index [s] when they exist. *)
Lemma slice4 {A : Type} (l : list A) (s : nat) (d : A) :
  (s + 4 <= List.length l)%nat ->
  slice l (Z.of_nat s) (Z.of_nat s + 4) =
  [nth s l d; nth (s + 1) l d; nth (s + 2) l d; nth (s + 3) l d].
Proof.
  intros H. unfold slice, slice_bound, len.
  destruct (Z.ltb_spec (Z.of_nat s) 0) as [Hneg | _]; [lia |].
  destruct (Z.ltb_spec (Z.of_nat s + 4) 0) as [Hneg | _]; [lia |].
  replace (Z.to_nat (Z.min (Z.max (Z.of_nat s) 0) (Z.of_nat (List.length l)))) with s by lia.
  replace (Z.to_nat _) with 4%nat by lia.
  apply firstn4_skipn. exact H.
Qed.

(** ** Closed form of the bakers on valid input *)

Lemma IZR_resolution_nonzero (resolution : Z) : (3 <= resolution)%Z -> IZR resolution <> 0.
Proof. intros H. apply not_0_IZR. lia. Qed.

Lemma odd_steps (n : Z) : (n mod 2 = 1)%Z -> (2 * ((n - 1) / 2) + 1 = n)%Z.
Proof.
  intros Hodd.
  pose proof (Z.div_mod n 2 ltac:(lia)) as Hdm.
  pose proof (Z.div_mod (n - 1) 2 ltac:(lia)) as Hdm1.
  pose proof (Z.mod_pos_bound (n - 1) 2 ltac:(lia)) as Hb.
  lia.
Qed.

Lemma quadratic_valid (points : list Vec2) (resolution : Z) :
  (len points mod 2 = 1)%Z -> (3 <= resolution)%Z -> (3 <= len points)%Z ->
  quadratic points resolution =
  Ok (flat_map
        (fun step => samples (quadratic_segment points (Z.to_nat step))
                             (1 / IZR resolution) (Z.to_nat resolution) 0)
        (range ((len points - 1) / 2))
      ++ [last points origin]).
Proof.
  intros Hodd Hres Hn. unfold quadratic.
  rewrite (proj2 (Z.eqb_eq _ _) Hodd), (proj2 (Z.leb_le _ _) Hres),
    (proj2 (Z.leb_le _ _) Hn).
  cbn [py_assert bind].
  rewrite (truediv_nonzero _ _ (IZR_resolution_nonzero _ Hres)). cbn [bind].
  erewrite for_each_outer; cycle 1.
  - intros step acc Hin. apply range_In in Hin.
    pose proof (odd_steps _ Hodd) as Hsteps.
    unfold len in *.
    erewrite (for_each_inner _ _ (quadratic_segment points (Z.to_nat step))).
    + cbn [bind]. rewrite range_length. reflexivity.
    + intros _ r acc'.
      replace (step * 2)%Z with (Z.of_nat (2 * Z.to_nat step)) by lia.
      replace (Z.of_nat (2 * Z.to_nat step) + 1)%Z
        with (Z.of_nat (2 * Z.to_nat step + 1)) by lia.
      replace (Z.of_nat (2 * Z.to_nat step) + 2)%Z
        with (Z.of_nat (2 * Z.to_nat step + 2)) by lia.
      rewrite !(getitem_in_range points _ origin) by lia.
      cbn [bind]. reflexivity.
  - cbn [bind app].
    rewrite (getitem_last points origin) by (intros ->; unfold len in Hn; simpl in Hn; lia).
    reflexivity.
Qed.

Lemma cubic_steps (n : Z) :
  (4 <= n)%Z -> ((n - 4) mod 3 = 0)%Z -> (3 * cubic_segments n + 1 = n)%Z.
Proof.
  intros Hn Hmod. unfold cubic_segments.
  destruct (Z.ltb_spec n 4) as [Hlt | _]; [lia |].
  pose proof (Z.div_mod (n - 4) 3 ltac:(lia)) as Hdm. lia.
Qed.

Lemma cubic_valid (points : list Vec2) (resolution : Z) :
  (4 <= len points)%Z -> ((len points - 4) mod 3 = 0)%Z -> (3 <= resolution)%Z ->
  cubic points resolution =
  Ok (flat_map
        (fun step => samples (cubic_segment points (Z.to_nat step))
                             (1 / IZR resolution) (Z.to_nat resolution) 0)
        (range (cubic_segments (len points)))
      ++ [last points origin]).
Proof.
  intros Hn Hmod Hres. unfold cubic.
  rewrite (proj2 (Z.eqb_eq _ _) Hmod), (proj2 (Z.leb_le _ _) Hres),
    (proj2 (Z.leb_le _ _) Hn).
  cbn [py_assert bind].
  rewrite (truediv_nonzero _ _ (IZR_resolution_nonzero _ Hres)). cbn [bind].
  erewrite for_each_outer; cycle 1.
  - intros step acc Hin. apply range_In in Hin.
    pose proof (cubic_steps _ Hn Hmod) as Hsteps.
    unfold len in *.
    replace (step * 3)%Z with (Z.of_nat (3 * Z.to_nat step)) by lia.
    rewrite (slice4 points _ origin) by lia.
    cbn [unpack4 bind].
    erewrite (for_each_inner _ _ (cubic_segment points (Z.to_nat step))).
    + cbn [bind]. rewrite range_length. reflexivity.
    + intros _ r acc'. reflexivity.
  - cbn [bind app].
    rewrite (getitem_last points origin)
      by (intros ->; unfold len in Hn; simpl in Hn; lia).
    reflexivity.
Qed.

(** ** The bakers raise exactly on invalid input *)

Lemma quadratic_raises (points : list Vec2) (resolution : Z) :
  quadratic_invalid (len points) resolution ->
  exists msg : string, quadratic points resolution = Raise (ValueError msg).
Proof.
  unfold quadratic_invalid, quadratic. intros H.
  destruct (Z.eqb_spec (len points mod 2) 1) as [Hodd | Heven];
    cbn [py_assert bind]; [| eexists; reflexivity].
  destruct (Z.leb_spec 3 resolution) as [Hres | Hres];
    cbn [py_assert bind]; [| eexists; reflexivity].
  destruct (Z.leb_spec 3 (len points)) as [Hn | Hn];
    cbn [py_assert bind]; [| eexists; reflexivity].
  lia.
Qed.

Lemma quadratic_valid_or_invalid (n resolution : Z) :
  quadratic_invalid n resolution \/
  ((n mod 2 = 1)%Z /\ (3 <= resolution)%Z /\ (3 <= n)%Z).
Proof.
  unfold quadratic_invalid.
  pose proof (Z.mod_pos_bound n 2 ltac:(lia)). lia.
Qed.

Lemma cubic_raises (points : list Vec2) (resolution : Z) :
  cubic_invalid (len points) resolution ->
  exists msg : string, cubic points resolution = Raise (ValueError msg).
Proof.
  unfold cubic_invalid, cubic. intros H.
  destruct (Z.leb_spec 4 (len points)) as [Hn | Hn];
    cbn [py_assert bind]; [| eexists; reflexivity].
  destruct (Z.eqb_spec ((len points - 4) mod 3) 0) as [Hmod | Hmod];
    cbn [py_assert bind]; [| eexists; reflexivity].
  destruct (Z.leb_spec 3 resolution) as [Hres | Hres];
    cbn [py_assert bind]; [| eexists; reflexivity].
  lia.
Qed.

Lemma cubic_valid_or_invalid (n resolution : Z) :
  cubic_invalid n resolution \/
  ((4 <= n)%Z /\ ((n - 4) mod 3 = 0)%Z /\ (3 <= resolution)%Z).
Proof. unfold cubic_invalid. lia. Qed.

Lemma quadratic_raise_iff (points : list Vec2) (resolution : Z) :
  (exists msg, quadratic points resolution = Raise (ValueError msg)) <->
  quadratic_invalid (len points) resolution.
Proof.
  split; [| apply quadratic_raises].
  intros [msg Hmsg].
  destruct (quadratic_valid_or_invalid (len points) resolution)
    as [Hq | (Hodd & Hres & Hn)]; [exact Hq |].
  rewrite (quadratic_valid _ _ Hodd Hres Hn) in Hmsg. discriminate.
Qed.

Lemma quadratic_ok_iff (points : list Vec2) (resolution : Z) :
  (exists out, quadratic points resolution = Ok out) <->
  ~ quadratic_invalid (len points) resolution.
Proof.
  split.
  - intros [out Hout] Hq. destruct (quadratic_raises _ _ Hq) as [msg Hmsg]. congruence.
  - intros Hq.
    destruct (quadratic_valid_or_invalid (len points) resolution)
      as [Hq' | (Hodd & Hres & Hn)]; [contradiction |].
    eexists. apply (quadratic_valid _ _ Hodd Hres Hn).
Qed.

Lemma cubic_raise_iff (points : list Vec2) (resolution : Z) :
  (exists msg, cubic points resolution = Raise (ValueError msg)) <->
  cubic_invalid (len points) resolution.
Proof.
  split; [| apply cubic_raises].
  intros [msg Hmsg].
  destruct (cubic_valid_or_invalid (len points) resolution)
    as [Hc | (Hn & Hmod & Hres)]; [exact Hc |].
  rewrite (cubic_valid _ _ Hn Hmod Hres) in Hmsg. discriminate.
Qed.

Lemma cubic_ok_iff (points : list Vec2) (resolution : Z) :
  (exists out, cubic points resolution = Ok out) <->
  ~ cubic_invalid (len points) resolution.
Proof.
  split.
  - intros [out Hout] Hc. destruct (cubic_raises _ _ Hc) as [msg Hmsg]. congruence.
  - intros Hc.
    destruct (cubic_valid_or_invalid (len points) resolution)
      as [Hc' | (Hn & Hmod & Hres)]; [contradiction |].
    eexists. apply (cubic_valid _ _ Hn Hmod Hres).
Qed.

(** C3. [quadratic] raises [ValueError] exactly when the number of points
    is even, or below 3, or the resolution is below 3; [cubic] raises it
    exactly when the number of points is below 4, or is not 4 plus a
    multiple of 3, or the resolution is below 3.  A raise carries no
    output; on every other input the call returns a list. *)
Theorem bakers_raise_iff_invalid :
  forall (points : list Vec2) (resolution : Z),
    ((exists msg, quadratic points resolution = Raise (ValueError msg)) <->
       quadratic_invalid (len points) resolution) /\
    ((exists out, quadratic points resolution = Ok out) <->
       ~ quadratic_invalid (len points) resolution) /\
    ((exists msg, cubic points resolution = Raise (ValueError msg)) <->
       cubic_invalid (len points) resolution) /\
    ((exists out, cubic points resolution = Ok out) <->
       ~ cubic_invalid (len points) resolution).
Proof.
  intros points resolution. split; [| split; [| split]].
  - apply quadratic_raise_iff.
  - apply quadratic_ok_iff.
  - apply cubic_raise_iff.
  - apply cubic_ok_iff.
Qed.

(** ** What the bakers return on valid input *)

Section BakedBlocks.

Variables (seg : nat -> R -> Vec2) (resolution steps : Z) (final : Vec2).
Hypothesis resolution_ok : (3 <= resolution)%Z.

Let block (step : Z) : list Vec2 :=
  samples (seg (Z.to_nat step)) (1 / IZR resolution) (Z.to_nat resolution) 0.

Let baked : list Vec2 := flat_map block (range steps) ++ [final].

Lemma block_length (step : Z) : List.length (block step) = Z.to_nat resolution.
Proof. apply samples_length. Qed.

Lemma baked_body_length :
  List.length (flat_map block (range steps)) = (Z.to_nat steps * Z.to_nat resolution)%nat.
Proof.
  rewrite (flat_map_blocks_length block (Z.to_nat resolution)) by apply block_length.
  rewrite range_length. reflexivity.
Qed.

Lemma baked_body_len :
  (0 <= steps)%Z -> len (flat_map block (range steps)) = (steps * resolution)%Z.
Proof.
  intros Hs. unfold len. rewrite baked_body_length, Nat2Z.inj_mul, !Z2Nat.id by lia.
  reflexivity.
Qed.

Lemma baked_len : (0 <= steps)%Z -> len baked = (steps * resolution + 1)%Z.
Proof.
  intros Hs. rewrite <- baked_body_len by exact Hs.
  unfold len, baked. rewrite length_app. simpl. lia.
Qed.

Lemma baked_last : last baked origin = final.
Proof. apply last_last. Qed.

Lemma baked_sample (step j : nat) :
  (Z.of_nat step < steps)%Z -> (j < Z.to_nat resolution)%nat ->
  nth_error baked (step * Z.to_nat resolution + j) =
  Some (seg step (INR j / IZR resolution)).
Proof.
  intros Hstep Hj. unfold baked.
  rewrite nth_error_app1 by (rewrite baked_body_length; nia).
  rewrite (flat_map_blocks_nth_error block (Z.to_nat resolution) block_length
             (range steps) step j (Z.of_nat step))
    by (try apply range_nth_error; lia).
  unfold block. rewrite samples_nth_error by exact Hj.
  rewrite Nat2Z.id. do 2 f_equal. field.
  apply IZR_resolution_nonzero, resolution_ok.
Qed.

End BakedBlocks.

(** The module's [lerp2] is the interpolation of the specification, so
    what the loop bodies compute are the De Casteljau points. *)
Lemma lerp2_interpolate (a b : Vec2) (r : R) : lerp2 a b r = interpolate a b r.
Proof. reflexivity. Qed.

Lemma de_casteljau2_casteljau (p0 p1 p2 : Vec2) (r : R) :
  de_casteljau2 p0 p1 p2 r = casteljau_quadratic p0 p1 p2 r.
Proof. unfold de_casteljau2, casteljau_quadratic. rewrite !lerp2_interpolate. reflexivity. Qed.

Lemma de_casteljau3_casteljau (a b c d : Vec2) (r : R) :
  de_casteljau3 a b c d r = casteljau_cubic a b c d r.
Proof. unfold de_casteljau3, casteljau_cubic. rewrite !lerp2_interpolate. reflexivity. Qed.

Lemma casteljau_quadratic_bernstein (p0 p1 p2 : Vec2) (r : R) :
  casteljau_quadratic p0 p1 p2 r = bernstein_quadratic p0 p1 p2 r.
Proof.
  unfold casteljau_quadratic, bernstein_quadratic, interpolate. cbn [fst snd].
  apply vec_eq; ring.
Qed.

Lemma casteljau_cubic_bernstein (a b c d : Vec2) (r : R) :
  casteljau_cubic a b c d r = bernstein_cubic a b c d r.
Proof.
  unfold casteljau_cubic, bernstein_cubic, interpolate. cbn [fst snd].
  apply vec_eq; ring.
Qed.

(** C1. On valid input, the baked output at index [step * resolution + j]
    (with [j < resolution] and [step] a segment) is the De Casteljau
    evaluation of segment [step] at the ratio [j / resolution]: two levels
    of pairwise interpolation [a + (b - a) * r] over
    [points[2*step .. 2*step+2]] for [quadratic], three levels over
    [points[3*step .. 3*step+3]] for [cubic].  The interpolation of the
    statement is the one written out in [interpolate], not the module's
    function; the same point is given in Bernstein form as well. *)
Theorem baked_samples_are_de_casteljau :
  forall (points : list Vec2) (resolution : Z) (step j : nat),
    (3 <= resolution)%Z ->
    (j < Z.to_nat resolution)%nat ->
    ((len points mod 2 = 1)%Z -> (3 <= len points)%Z ->
     (Z.of_nat step < (len points - 1) / 2)%Z ->
     exists out : list Vec2,
       quadratic points resolution = Ok out /\
       nth_error out (step * Z.to_nat resolution + j) =
       Some (casteljau_quadratic (point_at points (2 * step))
                                 (point_at points (2 * step + 1))
                                 (point_at points (2 * step + 2))
                                 (INR j / IZR resolution)) /\
       nth_error out (step * Z.to_nat resolution + j) =
       Some (bernstein_quadratic (point_at points (2 * step))
                                 (point_at points (2 * step + 1))
                                 (point_at points (2 * step + 2))
                                 (INR j / IZR resolution))) /\
    ((4 <= len points)%Z -> ((len points - 4) mod 3 = 0)%Z ->
     (Z.of_nat step < (len points - 4) / 3 + 1)%Z ->
     exists out : list Vec2,
       cubic points resolution = Ok out /\
       nth_error out (step * Z.to_nat resolution + j) =
       Some (casteljau_cubic (point_at points (3 * step))
                             (point_at points (3 * step + 1))
                             (point_at points (3 * step + 2))
                             (point_at points (3 * step + 3))
                             (INR j / IZR resolution)) /\
       nth_error out (step * Z.to_nat resolution + j) =
       Some (bernstein_cubic (point_at points (3 * step))
                             (point_at points (3 * step + 1))
                             (point_at points (3 * step + 2))
                             (point_at points (3 * step + 3))
                             (INR j / IZR resolution))).
Proof.
  intros points resolution step j Hres Hj. split.
  - intros Hodd Hn Hstep. eexists. split; [apply quadratic_valid; assumption |].
    rewrite <- casteljau_quadratic_bernstein, <- de_casteljau2_casteljau.
    split; apply (baked_sample (quadratic_segment points)); assumption.
  - intros Hn Hmod Hstep. eexists. split; [apply cubic_valid; assumption |].
    assert (Hseg : (Z.of_nat step < cubic_segments (len points))%Z)
      by (unfold cubic_segments; destruct (Z.ltb_spec (len points) 4);
          [lia | assumption]).
    rewrite <- casteljau_cubic_bernstein, <- de_casteljau3_casteljau.
    split; apply (baked_sample (cubic_segment points)); assumption.
Qed.


(** ** The flattened control polygon of a [Bezier] *)

Lemma enumerate_enumerate_from {A : Type} (l : list A) : enumerate l = enumerate_from 0 l.
Proof. unfold enumerate, enumerate_from, range, len. rewrite Nat2Z.id. reflexivity. Qed.

Lemma enumerate_from_cons {A : Type} (a : nat) (x : A) (l : list A) :
  enumerate_from a (x :: l) = (Z.of_nat a, x) :: enumerate_from (S a) l.
Proof. reflexivity. Qed.

(** A loop that only appends builds the concatenation of what it appends. *)
Lemma fold_left_append {X A : Type} (g : X -> list A) (body : list A -> X -> list A) :
  (forall acc x, body acc x = acc ++ g x) ->
  forall (xs : list X) (acc : list A), fold_left body xs acc = acc ++ flat_map g xs.
Proof.
  intros Hbody. induction xs as [| x xs IH]; intros acc; simpl.
  - rewrite app_nil_r. reflexivity.
  - rewrite IH, Hbody, app_assoc. reflexivity.
Qed.

Lemma quadratic_points_length (last : Z) (g : Z * Point -> list Vec2) :
  (forall i p, g (i, p) = if (i =? last)%Z then [pos p] else [pos p; begin p]) ->
  forall (l : list Point) (a : nat),
    l <> [] -> last = (Z.of_nat a + len l - 1)%Z ->
    List.length (flat_map g (enumerate_from a l)) = (2 * List.length l - 1)%nat.
Proof.
  intros Hg. induction l as [| p l IH]; intros a Hne Hlast; [contradiction |].
  rewrite enumerate_from_cons. simpl flat_map. rewrite length_app, Hg.
  unfold len in Hlast. simpl List.length in Hlast.
  destruct l as [| q l].
  - destruct (Z.eqb_spec (Z.of_nat a) last); [reflexivity | simpl in Hlast; lia].
  - rewrite (IH (S a)); [| discriminate | unfold len; simpl List.length in *; lia].
    destruct (Z.eqb_spec (Z.of_nat a) last); simpl List.length in *; lia.
Qed.

Lemma cubic_points_tail_length (last : Z) (g : Z * Point -> list Vec2) :
  (forall i p, g (i, p) =
     if (i =? 0)%Z then [pos p; begin p]
     else if (i =? last)%Z then [end_ p; pos p]
     else [end_ p; pos p; begin p]) ->
  forall (l : list Point) (a : nat),
    l <> [] -> (0 < a)%nat -> last = (Z.of_nat a + len l - 1)%Z ->
    List.length (flat_map g (enumerate_from a l)) = (3 * List.length l - 1)%nat.
Proof.
  intros Hg. induction l as [| p l IH]; intros a Hne Ha Hlast; [contradiction |].
  rewrite enumerate_from_cons. simpl flat_map. rewrite length_app, Hg.
  unfold len in Hlast. simpl List.length in Hlast.
  destruct (Z.eqb_spec (Z.of_nat a) 0) as [H0 | _]; [lia |].
  destruct l as [| q l].
  - destruct (Z.eqb_spec (Z.of_nat a) last); [reflexivity | simpl in Hlast; lia].
  - rewrite (IH (S a)); [| discriminate | lia | unfold len; simpl List.length in *; lia].
    destruct (Z.eqb_spec (Z.of_nat a) last); simpl List.length in *; lia.
Qed.

Lemma bake_points_quadratic_length (b : Bezier) :
  _is_cubic b = false -> _points b <> [] ->
  len (Bezier_bake_points b) = (2 * len (_points b) - 1)%Z.
Proof.
  intros Hq Hne. unfold Bezier_bake_points. rewrite Hq.
  rewrite (fold_left_append
             (fun '(i, point) =>
                if (i =? len (_points b) - 1)%Z then [pos point]
                else [pos point; begin point]))
    by (intros acc [i p]; destruct (i =? len (_points b) - 1)%Z; reflexivity).
  simpl app. rewrite enumerate_enumerate_from. unfold len at 1.
  rewrite (quadratic_points_length (len (_points b) - 1)); try assumption.
  - unfold len. destruct (_points b); [contradiction | simpl List.length; lia].
  - intros i p. reflexivity.
  - lia.
Qed.

Lemma bake_points_cubic_length (b : Bezier) :
  _is_cubic b = true -> (2 <= len (_points b))%Z ->
  len (Bezier_bake_points b) = (3 * len (_points b) - 2)%Z.
Proof.
  intros Hc Hn. unfold Bezier_bake_points. rewrite Hc.
  rewrite (fold_left_append
             (fun '(i, point) =>
                if (i =? 0)%Z then [pos point; begin point]
                else if (i =? len (_points b) - 1)%Z then [end_ point; pos point]
                else [end_ point; pos point; begin point]))
    by (intros acc [i p]; destruct (i =? 0)%Z;
        [| destruct (i =? len (_points b) - 1)%Z]; reflexivity).
  simpl app. rewrite enumerate_enumerate_from.
  destruct (_points b) as [| p [| q l]] eqn:Hpts;
    [unfold len in Hn; simpl in Hn; lia | unfold len in Hn; simpl in Hn; lia |].
  rewrite enumerate_from_cons. cbn [flat_map]. unfold len at 1. rewrite length_app.
  change (Z.of_nat 0 =? 0)%Z with true. cbv iota.
  rewrite (cubic_points_tail_length (len (p :: q :: l) - 1)).
  - unfold len. simpl List.length. lia.
  - intros i p0. reflexivity.
  - discriminate.
  - lia.
  - unfold len. simpl List.length. lia.
Qed.

(** C9. For a curve of [n >= 2] points, [bake_points] (the spec's
    [flattened_points]) has [2n - 1] elements in quadratic mode and
    [3n - 2] in cubic mode; these counts meet the point-count precondition
    of the baker of that mode, so [bake_curve] with a resolution of at
    least 3 returns a list and raises nothing. *)
Theorem bake_curve_never_raises :
  forall (b : Bezier) (resolution : Z),
    (2 <= len (_points b))%Z ->
    (3 <= resolution)%Z ->
    len (Bezier_bake_points b) =
      (if _is_cubic b then 3 * len (_points b) - 2 else 2 * len (_points b) - 1)%Z /\
    (if _is_cubic b
     then ~ cubic_invalid (len (Bezier_bake_points b)) resolution
     else ~ quadratic_invalid (len (Bezier_bake_points b)) resolution) /\
    exists out : list Vec2, Bezier_bake_curve b resolution = Ok out.
Proof.
  intros b resolution Hn Hres. unfold Bezier_bake_curve.
  destruct (_is_cubic b) eqn:Hmode.
  - pose proof (bake_points_cubic_length b Hmode Hn) as Hlen.
    assert (Hvalid : ~ cubic_invalid (len (Bezier_bake_points b)) resolution).
    { rewrite Hlen. unfold cubic_invalid.
      replace (3 * len (_points b) - 2 - 4)%Z with ((len (_points b) - 2) * 3)%Z by lia.
      rewrite Z.mod_mul by lia. lia. }
    split; [exact Hlen |]. split; [exact Hvalid |].
    apply cubic_ok_iff, Hvalid.
  - assert (Hne : _points b <> [])
      by (intros Hnil; rewrite Hnil in Hn; unfold len in Hn; simpl in Hn; lia).
    pose proof (bake_points_quadratic_length b Hmode Hne) as Hlen.
    assert (Hvalid : ~ quadratic_invalid (len (Bezier_bake_points b)) resolution).
    { rewrite Hlen. unfold quadratic_invalid.
      replace (2 * len (_points b) - 1)%Z with (1 + (len (_points b) - 1) * 2)%Z by lia.
      rewrite Z.mod_add by lia. change (1 mod 2)%Z with 1%Z. lia. }
    split; [exact Hlen |]. split; [exact Hvalid |].
    apply quadratic_ok_iff, Hvalid.
Qed.

(** ** Hit-testing a [Bezier] in quadratic mode *)

Lemma quadratic_loop_never_ctrl_end (items : list (Z * Point)) (location : Vec2)
    (margin : R) (i : Z) (pty : PointType) (ofs : Vec2) :
  Bezier_find_point_loop false items location margin = Some (i, pty, ofs) ->
  pty <> PT_CTRL_END.
Proof.
  induction items as [| [k p] rest IH]; simpl; [discriminate |].
  destruct (Point_find_point p location margin) as [[pty' ofs'] |]; [| exact IH].
  destruct pty'; simpl; try exact IH; intros H; inversion H; discriminate.
Qed.

Lemma quadratic_loop_passed_over (location : Vec2) (margin : R) (post : list Point) :
  forall (pre : list Point) (a : nat),
    Forall (passed_over location margin) pre ->
    Bezier_find_point_loop false (enumerate_from a (pre ++ post)) location margin =
    Bezier_find_point_loop false (enumerate_from (a + List.length pre) post)
      location margin.
Proof.
  induction pre as [| p pre IH]; intros a Hpre.
  - simpl. rewrite Nat.add_0_r. reflexivity.
  - inversion Hpre as [| ? ? Hp Hrest]. subst.
    rewrite <- app_comm_cons, enumerate_from_cons. cbn [Bezier_find_point_loop].
    replace (a + List.length (p :: pre))%nat with (S a + List.length pre)%nat
      by (simpl; lia).
    destruct Hp as [Hnone | [ofs Hend]].
    + rewrite Hnone. apply IH, Hrest.
    + rewrite Hend. simpl. apply IH, Hrest.
Qed.

(** C6. In quadratic mode [Bezier.find_point] (the spec's [Curve.hit_test])
    never returns [PT_CTRL_END] (the spec's [HandleOut]); when the search
    reaches a point whose hit part is its [end] handle, the result is the
    result of the search over the points after it. *)
Theorem quadratic_hit_test_skips_ctrl_end :
  forall (b : Bezier) (location : Vec2) (margin : Number),
    _is_cubic b = false ->
    (forall i pty ofs,
       Bezier_find_point b location margin = Some (i, pty, ofs) ->
       pty <> PT_CTRL_END) /\
    (forall pre p post ofs,
       _points b = pre ++ p :: post ->
       Forall (passed_over location margin) pre ->
       Point_find_point p location margin = Some (PT_CTRL_END, ofs) ->
       Bezier_find_point b location margin =
       Bezier_find_point_loop false (enumerate_from (S (List.length pre)) post)
         location margin).
Proof.
  intros b location margin Hq. unfold Bezier_find_point. rewrite Hq. split.
  - intros i pty ofs. apply quadratic_loop_never_ctrl_end.
  - intros pre p post ofs Hpts Hpre Hp.
    rewrite Hpts, enumerate_enumerate_from.
    replace (pre ++ p :: post) with ((pre ++ [p]) ++ post)
      by (rewrite <- app_assoc; reflexivity).
    rewrite quadratic_loop_passed_over.
    + rewrite length_app. simpl. rewrite Nat.add_1_r. reflexivity.
    + apply Forall_app. split; [exact Hpre |].
      constructor; [| constructor]. right. exists ofs. exact Hp.
Qed.

(** ** The editing claims about [Point.move_point] *)

(** C5. In Symmetrical mode, moving a handle so that its resolved
    displacement from the anchor is [d = (dx, dy)] leaves the anchor in
    place, puts the moved handle at displacement [d] and its sibling at
    displacement [(-dx, -dy)]; this holds for [begin] and for [end] alike.
    Displacements are coordinate differences, written out in [vsub]. *)
Theorem symmetrical_move_mirrors :
  forall (p : Point) (ty : PointType) (position offset d : Vec2),
    is_handle ty ->
    mode p = PM_SYMMETRICAL ->
    vsub (vadd offset position) (pos p) = d ->
    exists p' : Point,
      Point_move_point p ty position offset = Ok p' /\
      pos p' = pos p /\
      vsub (part p' ty) (pos p') = d /\
      vsub (part p' (sibling ty)) (pos p') = (- fst d, - snd d).
Proof.
  intros p ty position offset d Hty Hmode Hd.
  destruct (move_symmetrical p ty position offset Hty Hmode)
    as (p' & Hmove & Hpos & _ & Hpart & Hsib).
  exists p'. split; [exact Hmove |]. split; [exact Hpos |].
  rewrite Hpart, Hsib, Hpos, Hd. split; [reflexivity |].
  destruct (pos p) as [px py]. destruct d as [dx dy].
  unfold vsub, vadd, opposite. simpl. apply vec_eq; ring.
Qed.

Lemma vsub_nonzero (a b : Vec2) : a <> b -> vsub a b <> (0, 0).
Proof.
  destruct a as [ax ay], b as [bx by_]. unfold vsub. simpl. intros Hab H.
  apply Hab. inversion H. apply vec_eq; lra.
Qed.

(** C4, amended.  In Smooth mode, moving a handle to a target that is not
    the anchor itself leaves the anchor in place, puts the moved handle on
    the target, and puts the sibling handle at the displacement
    [-(e / |d|) * d], where [d = (dx, dy)] is the moved handle's new
    displacement, [|d|] its Euclidean norm and [e] the Euclidean distance
    of the sibling from the anchor before the move.  The factor [e / |d|]
    is positive whenever the sibling was not on the anchor, so the sibling
    then points exactly opposite to [d]; its distance from the anchor is
    [e] as before.  Norms and distances are [sqrt (x^2 + y^2)], written
    out in [norm]; the module's [length] returns the same values. *)
Theorem smooth_move_opposite_same_distance :
  forall (p : Point) (ty : PointType) (position offset d : Vec2),
    is_handle ty ->
    mode p = PM_SMOOTH ->
    vsub (vadd offset position) (pos p) = d ->
    d <> (0, 0) ->
    exists (p' : Point) (k : Number),
      Point_move_point p ty position offset = Ok p' /\
      pos p' = pos p /\
      part p' ty = vadd offset position /\
      k = norm (vsub (part p (sibling ty)) (pos p)) / norm d /\
      0 <= k /\
      (part p (sibling ty) <> pos p -> 0 < k) /\
      vsub (part p' (sibling ty)) (pos p') = (- (k * fst d), - (k * snd d)) /\
      norm (vsub (part p' (sibling ty)) (pos p')) =
        norm (vsub (part p (sibling ty)) (pos p)) /\
      length (vsub (part p' (sibling ty)) (pos p')) =
        length (vsub (part p (sibling ty)) (pos p)).
Proof.
  intros p ty position offset d Hty Hmode Hd Hnz. subst d.
  destruct (move_smooth_nonzero p ty position offset Hty Hmode Hnz)
    as (p' & Hmove & Hpos & _ & Hpart & Hsib).
  pose proof (norm_nonzero _ Hnz) as Hn.
  pose proof (norm_nonneg (vsub (vadd offset position) (pos p))) as Hd0.
  pose proof (norm_nonneg (vsub (part p (sibling ty)) (pos p))) as He0.
  set (d := vsub (vadd offset position) (pos p)) in *.
  set (e := norm (vsub (part p (sibling ty)) (pos p))) in *.
  assert (Hinv : 0 < / norm d) by (apply Rinv_0_lt_compat; lra).
  assert (Hk : 0 <= e / norm d) by (apply Rmult_le_pos; lra).
  assert (Hnorm : norm (vsub (part p' (sibling ty)) (pos p')) = e).
  { rewrite Hsib, norm_vscale, norm_opposite, Rabs_pos_eq by exact Hk.
    field. exact Hn. }
  exists p', (e / norm d).
  split; [exact Hmove |]. split; [exact Hpos |]. split; [exact Hpart |].
  split; [reflexivity |]. split; [exact Hk |].
  split.
  { intros Hsibling. apply Rmult_lt_0_compat; [| exact Hinv].
    pose proof (norm_nonzero _ (vsub_nonzero _ _ Hsibling)). unfold e in *. lra. }
  split.
  { rewrite Hsib. unfold vscale, opposite. cbn [fst snd]. apply vec_eq; ring. }
  split; [exact Hnorm |].
  rewrite !length_norm, Hnorm. reflexivity.
Qed.

(** C10. In Smooth mode, when a handle is moved exactly onto the anchor
    while its sibling is at a nonzero distance from the anchor, the call
    raises nothing and puts the sibling on the anchor too: its distance
    becomes zero, so the distance it had before the move is lost. *)
Theorem smooth_move_onto_anchor_collapses_sibling :
  forall (p : Point) (ty : PointType) (position offset : Vec2),
    is_handle ty ->
    mode p = PM_SMOOTH ->
    length (vsub (part p (sibling ty)) (pos p)) <> Ok 0 ->
    vsub (vadd offset position) (pos p) = (0, 0) ->
    exists p' : Point,
      Point_move_point p ty position offset = Ok p' /\
      pos p' = pos p /\
      part p' ty = pos p /\
      part p' (sibling ty) = pos p /\
      length (vsub (part p' (sibling ty)) (pos p')) = Ok 0 /\
      length (vsub (part p' (sibling ty)) (pos p')) <>
      length (vsub (part p (sibling ty)) (pos p)).
Proof.
  intros p ty position offset Hty Hmode Hsib Hzero.
  assert (Htarget : vadd offset position = pos p).
  { destruct (pos p) as [px py]. unfold vsub, vadd in *. simpl in *.
    inversion Hzero. apply vec_eq; lra. }
  destruct (move_smooth_zero p ty position offset Hty Hmode Htarget)
    as (p' & Hmove & Hpos & _ & Hpart & Hs).
  exists p'. split; [exact Hmove |]. split; [exact Hpos |].
  split; [exact Hpart |]. split; [exact Hs |].
  assert (Hlen : length (vsub (part p' (sibling ty)) (pos p')) = Ok 0).
  { rewrite length_norm, Hs, Hpos. f_equal.
    destruct (pos p) as [px py]. apply norm_zero_components; simpl; lra. }
  split; [exact Hlen |]. rewrite Hlen. intros Heq. apply Hsib. symmetry. exact Heq.
Qed.

(** What the code does with a hit: the offset that [Point.find_point]
    returns is the hit location minus the position of the hit part, and
    [move_point] called with that part type, the same location and that
    offset puts the part at [location + offset]. *)
Lemma hit_offset_is_location_minus_part :
  forall (p : Point) (location : Vec2) (margin : Number)
         (ty : PointType) (ofs : Vec2),
    Point_find_point p location margin = Some (ty, ofs) ->
    ofs = vsub location (part p ty) /\
    Rabs (fst ofs) <= margin /\ Rabs (snd ofs) <= margin /\
    exists p' : Point,
      Point_move_point p ty location ofs = Ok p' /\
      part p' ty = vadd ofs location /\
      part p' ty = vadd (part p ty) (vscale 2 ofs) /\
      (part p' ty = part p ty <-> ofs = (0, 0)).
Proof.
  intros p location margin ty ofs Hfind.
  destruct (Point_find_point_offset _ _ _ _ _ Hfind) as (Hofs & Hx & Hy).
  split; [exact Hofs |]. split; [exact Hx |]. split; [exact Hy |].
  destruct (move_point_part p ty location ofs) as (p' & Hmove & Hpart).
  exists p'. split; [exact Hmove |]. split; [exact Hpart |].
  rewrite Hpart, Hofs. destruct location as [x y]. destruct (part p ty) as [qx qy].
  unfold vadd, vsub, vscale. simpl. split; [apply vec_eq; ring |].
  split; intros H; inversion H; apply vec_eq; lra.
Qed.

(** ** The theorems at concrete inputs

    Each lemma below instantiates one of the theorems above at the concrete
    inputs of the section "Concrete inputs" and discharges its hypotheses
    there, which shows that the hypotheses can be met. *)

Ltac solve_Rabs := unfold Rabs; destruct (Rcase_abs _); lra.

Lemma norm_eq (v : Vec2) (c : R) :
  0 <= c -> fst v ^ 2 + snd v ^ 2 = c * c -> norm v = c.
Proof. intros Hc H. unfold norm. apply sqrt_lem_1; [apply sumsq_nonneg | exact Hc | lra]. Qed.

Lemma baked_samples_are_de_casteljau_witness :
  (exists out : list Vec2,
     quadratic quadratic_example 3 = Ok out /\
     nth_error out (0 * Z.to_nat 3 + 1) =
     Some (casteljau_quadratic (point_at quadratic_example (2 * 0))
                               (point_at quadratic_example (2 * 0 + 1))
                               (point_at quadratic_example (2 * 0 + 2))
                               (INR 1 / IZR 3)) /\
     nth_error out (0 * Z.to_nat 3 + 1) =
     Some (bernstein_quadratic (point_at quadratic_example (2 * 0))
                               (point_at quadratic_example (2 * 0 + 1))
                               (point_at quadratic_example (2 * 0 + 2))
                               (INR 1 / IZR 3))) /\
  (exists out : list Vec2,
     cubic cubic_example 3 = Ok out /\
     nth_error out (0 * Z.to_nat 3 + 1) =
     Some (casteljau_cubic (point_at cubic_example (3 * 0))
                           (point_at cubic_example (3 * 0 + 1))
                           (point_at cubic_example (3 * 0 + 2))
                           (point_at cubic_example (3 * 0 + 3))
                           (INR 1 / IZR 3)) /\
     nth_error out (0 * Z.to_nat 3 + 1) =
     Some (bernstein_cubic (point_at cubic_example (3 * 0))
                           (point_at cubic_example (3 * 0 + 1))
                           (point_at cubic_example (3 * 0 + 2))
                           (point_at cubic_example (3 * 0 + 3))
                           (INR 1 / IZR 3))).
Proof.
  split.
  - apply (proj1 (baked_samples_are_de_casteljau quadratic_example 3 0 1
                    ltac:(lia) ltac:(simpl; lia)));
      [reflexivity | unfold len; simpl; lia | reflexivity].
  - apply (proj2 (baked_samples_are_de_casteljau cubic_example 3 0 1
                    ltac:(lia) ltac:(simpl; lia)));
      [unfold len; simpl; lia | reflexivity | reflexivity].
Defined.


Lemma symmetrical_move_mirrors_witness :
  exists p' : Point,
    Point_move_point (anchor_example PM_SYMMETRICAL) PT_CTRL_BEGIN (3, 4) (0, 0) = Ok p' /\
    pos p' = (0, 0) /\
    vsub (part p' PT_CTRL_BEGIN) (pos p') = (0 + 3 - 0, 0 + 4 - 0) /\
    vsub (part p' (sibling PT_CTRL_BEGIN)) (pos p') =
      (- fst (0 + 3 - 0, 0 + 4 - 0), - snd (0 + 3 - 0, 0 + 4 - 0)).
Proof.
  apply (symmetrical_move_mirrors (anchor_example PM_SYMMETRICAL) PT_CTRL_BEGIN
           (3, 4) (0, 0)); [left; reflexivity | reflexivity | reflexivity].
Defined.

Lemma smooth_move_opposite_same_distance_witness :
  exists (p' : Point) (k : Number),
    Point_move_point (anchor_example PM_SMOOTH) PT_CTRL_BEGIN (3, 4) (0, 0) = Ok p' /\
    pos p' = (0, 0) /\
    part p' PT_CTRL_BEGIN = (0 + 3, 0 + 4) /\
    k = norm (vsub (end_ (anchor_example PM_SMOOTH)) (pos (anchor_example PM_SMOOTH)))
        / norm (0 + 3 - 0, 0 + 4 - 0) /\
    0 <= k /\
    (end_ (anchor_example PM_SMOOTH) <> pos (anchor_example PM_SMOOTH) -> 0 < k) /\
    vsub (part p' PT_CTRL_END) (pos p') =
      (- (k * fst (0 + 3 - 0, 0 + 4 - 0)), - (k * snd (0 + 3 - 0, 0 + 4 - 0))) /\
    norm (vsub (part p' PT_CTRL_END) (pos p')) =
      norm (vsub (end_ (anchor_example PM_SMOOTH)) (pos (anchor_example PM_SMOOTH))) /\
    length (vsub (part p' PT_CTRL_END) (pos p')) =
    length (vsub (end_ (anchor_example PM_SMOOTH)) (pos (anchor_example PM_SMOOTH))).
Proof.
  apply (smooth_move_opposite_same_distance (anchor_example PM_SMOOTH) PT_CTRL_BEGIN
           (3, 4) (0, 0)); [left; reflexivity | reflexivity | reflexivity |].
  intros H. inversion H. lra.
Defined.

Lemma smooth_move_onto_anchor_collapses_sibling_witness :
  exists p' : Point,
    Point_move_point (anchor_example PM_SMOOTH) PT_CTRL_BEGIN (0, 0) (0, 0) = Ok p' /\
    pos p' = (0, 0) /\
    part p' PT_CTRL_BEGIN = (0, 0) /\
    part p' PT_CTRL_END = (0, 0) /\
    length (vsub (part p' PT_CTRL_END) (pos p')) = Ok 0 /\
    length (vsub (part p' PT_CTRL_END) (pos p')) <>
    length (vsub (end_ (anchor_example PM_SMOOTH)) (pos (anchor_example PM_SMOOTH))).
Proof.
  apply (smooth_move_onto_anchor_collapses_sibling (anchor_example PM_SMOOTH)
           PT_CTRL_BEGIN (0, 0) (0, 0)); [left; reflexivity | reflexivity | |].
  - rewrite length_norm. intros H. inversion H as [Hn].
    rewrite (norm_eq _ 10) in Hn; [lra | lra | simpl; ring].
  - unfold vsub, vadd. simpl. apply vec_eq; lra.
Defined.

Lemma quadratic_hit_test_skips_ctrl_end_witness :
  (forall i pty ofs,
     Bezier_find_point (curve_example BM_QUADRATIC) (-10, 0) 2 = Some (i, pty, ofs) ->
     pty <> PT_CTRL_END) /\
  Bezier_find_point (curve_example BM_QUADRATIC) (-10, 0) 2 =
  Bezier_find_point_loop false (enumerate_from 1 [second_example]) (-10, 0) 2.
Proof.
  destruct (quadratic_hit_test_skips_ctrl_end (curve_example BM_QUADRATIC) (-10, 0) 2
              eq_refl) as [Hnever Hnext].
  split; [exact Hnever |].
  apply (Hnext [] (anchor_example PM_SYMMETRICAL) [second_example]
           (-10 - -10, 0 - 0)); [reflexivity | constructor |].
  unfold Point_find_point, anchor_example. cbn [find_point_loop pos begin end_].
  rewrite (Rgtb_true (Rabs (-10 - 0)) 2) by solve_Rabs. cbn [orb].
  rewrite (Rgtb_true (Rabs (-10 - 10)) 2) by solve_Rabs. cbn [orb].
  rewrite (Rgtb_false (Rabs (-10 - -10)) 2) by solve_Rabs.
  rewrite (Rgtb_false (Rabs (0 - 0)) 2) by solve_Rabs. reflexivity.
Defined.

Lemma bake_curve_never_raises_witness :
  len (Bezier_bake_points (curve_example BM_CUBIC)) = 4%Z /\
  ~ cubic_invalid (len (Bezier_bake_points (curve_example BM_CUBIC))) 3 /\
  exists out : list Vec2, Bezier_bake_curve (curve_example BM_CUBIC) 3 = Ok out.
Proof.
  apply (bake_curve_never_raises (curve_example BM_CUBIC) 3);
    [unfold len; simpl; lia | lia].
Defined.

(** ** The code at the inputs where a claim as first stated fails *)

(** C4 as stated fails: in Smooth mode, moving [begin] onto the anchor
    puts [end] on the anchor, at distance 0, though it was at distance 10. *)
Lemma smooth_move_loses_distance :
  exists p' : Point,
    Point_move_point (anchor_example PM_SMOOTH) PT_CTRL_BEGIN (0, 0) (0, 0) = Ok p' /\
    length (vsub (end_ p') (pos p')) = Ok 0 /\
    length (vsub (end_ (anchor_example PM_SMOOTH)) (pos (anchor_example PM_SMOOTH)))
      = Ok 10 /\
    length (vsub (end_ p') (pos p')) <>
    length (vsub (end_ (anchor_example PM_SMOOTH)) (pos (anchor_example PM_SMOOTH))).
Proof.
  destruct (move_smooth_zero (anchor_example PM_SMOOTH) PT_CTRL_BEGIN (0, 0) (0, 0))
    as (p' & Hmove & Hpos & _ & _ & Hend);
    [left; reflexivity | reflexivity | unfold vadd; simpl; apply vec_eq; lra |].
  simpl in Hpos, Hend.
  assert (Hafter : length (vsub (end_ p') (pos p')) = Ok 0).
  { rewrite length_norm, Hend, Hpos. f_equal. apply norm_zero_components; simpl; lra. }
  assert (Hbefore : length (vsub (end_ (anchor_example PM_SMOOTH))
                                 (pos (anchor_example PM_SMOOTH))) = Ok 10).
  { rewrite length_norm. f_equal. apply norm_eq; [lra | simpl; ring]. }
  exists p'. split; [exact Hmove |]. split; [exact Hafter |]. split; [exact Hbefore |].
  rewrite Hafter, Hbefore. intros H. inversion H. lra.
Qed.

(** C8 as stated fails for a negative scale: [normal((3, 4), -5)] is
    [(-3, -4)], whose length is 5, not -5. *)
Lemma normal_negative_scale_length :
  exists w : Vec2,
    normal (3, 4) (-5) = Ok w /\
    w = (-3, -4) /\
    length w = Ok 5 /\
    norm w <> -5.
Proof.
  assert (Hn : norm (3, 4) = 5) by (apply norm_eq; [lra | simpl; ring]).
  assert (Hw : norm (-3, -4) = 5) by (apply norm_eq; [lra | simpl; ring]).
  exists (-3, -4). split.
  - rewrite normal_nonzero by (rewrite Hn; lra). rewrite Hn. cbn [fst snd].
    apply f_equal. apply vec_eq; field.
  - split; [reflexivity |]. split; [rewrite length_norm, Hw; reflexivity |].
    rewrite Hw. lra.
Qed.

(** C7.  The code at a hit one unit to the right of the anchor of
    [Point(0, 0)], margin 2: [find_point] returns the offset [(1, 0)],
    location minus part, not part minus location [(-1, 0)]; [move_point]
    with that location and offset puts the anchor at [(2, 0)], not back at
    [(0, 0)]. *)
Lemma hit_offset_not_part_minus_location :
  exists (ofs : Vec2) (p' : Point),
    Point_find_point (anchor_example PM_CUSP) (1, 0) 2 = Some (PT_POSITION, ofs) /\
    ofs = (1, 0) /\
    ofs <> vsub (part (anchor_example PM_CUSP) PT_POSITION) (1, 0) /\
    Point_move_point (anchor_example PM_CUSP) PT_POSITION (1, 0) ofs = Ok p' /\
    part p' PT_POSITION = (2, 0) /\
    part p' PT_POSITION <> part (anchor_example PM_CUSP) PT_POSITION.
Proof.
  exists (1 - 0, 0 - 0).
  destruct (move_point_part (anchor_example PM_CUSP) PT_POSITION (1, 0) (1 - 0, 0 - 0))
    as (p' & Hmove & Hpart).
  exists p'.
  split; [apply (Point_find_point_position (anchor_example PM_CUSP) 1 0 2);
          simpl; solve_Rabs |].
  split; [apply vec_eq; lra |].
  split; [unfold vsub; simpl; intros H; inversion H; lra |].
  split; [exact Hmove |].
  rewrite Hpart. unfold vadd. simpl.
  split; [apply vec_eq; lra | intros H; inversion H; lra].
Qed.

(** ** The spec's scenarios *)

Lemma lerp2_start (a b : Vec2) : lerp2 a b 0 = a.
Proof. destruct a, b. unfold lerp2. simpl. apply vec_eq; ring. Qed.

Lemma lerp2_end (a b : Vec2) : lerp2 a b 1 = b.
Proof. destruct a, b. unfold lerp2. simpl. apply vec_eq; ring. Qed.

Lemma de_casteljau2_start (p0 p1 p2 : Vec2) : de_casteljau2 p0 p1 p2 0 = p0.
Proof. unfold de_casteljau2. rewrite !lerp2_start. reflexivity. Qed.

Lemma de_casteljau3_start (a b c d : Vec2) : de_casteljau3 a b c d 0 = a.
Proof. unfold de_casteljau3. rewrite !lerp2_start. reflexivity. Qed.

(** [quadratic([(0,0),(5,10),(10,0)], 3)]: four points, from (0,0) to (10,0). *)
Example quadratic_scenario :
  exists out : list Vec2,
    quadratic quadratic_example 3 = Ok out /\
    len out = 4%Z /\ nth_error out 0 = Some (0, 0) /\ last out origin = (10, 0).
Proof.
  eexists. split; [apply quadratic_valid; [reflexivity | lia | unfold len; simpl; lia] |].
  split; [reflexivity |]. split; [| reflexivity].
  simpl. unfold quadratic_segment. rewrite de_casteljau2_start. reflexivity.
Qed.

(** [cubic([(0,0),(0,10),(10,10),(10,0)], 3)]: four points, from (0,0) to (10,0). *)
Example cubic_scenario :
  exists out : list Vec2,
    cubic cubic_example 3 = Ok out /\
    len out = 4%Z /\ nth_error out 0 = Some (0, 0) /\ last out origin = (10, 0).
Proof.
  eexists. split; [apply cubic_valid; [unfold len; simpl; lia | reflexivity | lia] |].
  split; [reflexivity |]. split; [| reflexivity].
  simpl. unfold cubic_segment. rewrite de_casteljau3_start. reflexivity.
Qed.

(** An even number of points and a resolution below 3 are refused. *)
Example quadratic_refuses_even :
  quadratic [(0, 0); (5, 10)] 3 =
  Raise (ValueError "An odd number of points must be provided.").
Proof. reflexivity. Qed.

Example cubic_refuses_low_resolution :
  cubic cubic_example 2 = Raise (ValueError "Resolution is too low.").
Proof. reflexivity. Qed.

(** In quadratic mode a location on the first point's [end] handle finds the
    second point, whose anchor is there; in cubic mode it finds the handle. *)
Example quadratic_hit_test_continues :
  Bezier_find_point (curve_example BM_QUADRATIC) (-10, 0) 2 =
  Some (1%Z, PT_POSITION, (-10 - -10, 0 - 0)).
Proof.
  change (Bezier_find_point_loop false
            [(0%Z, anchor_example PM_SYMMETRICAL); (1%Z, second_example)] (-10, 0) 2 =
          Some (1%Z, PT_POSITION, (-10 - -10, 0 - 0))).
  cbn [Bezier_find_point_loop].
  unfold Point_find_point, anchor_example, second_example.
  cbn [find_point_loop pos begin end_].
  rewrite (Rgtb_true (Rabs (-10 - 0)) 2) by solve_Rabs. cbn [orb].
  rewrite (Rgtb_true (Rabs (-10 - 10)) 2) by solve_Rabs. cbn [orb].
  rewrite (Rgtb_false (Rabs (-10 - -10)) 2) by solve_Rabs.
  rewrite (Rgtb_false (Rabs (0 - 0)) 2) by solve_Rabs.
  reflexivity.
Qed.

(** ** Further properties of [Point.move_point] *)

(** X1. In Cusp mode a handle move puts the moved handle on
    [position + offset] and leaves the anchor, the other handle and the
    mode as they were. *)
Theorem cusp_move_leaves_sibling :
  forall (p : Point) (ty : PointType) (position offset : Vec2),
    is_handle ty ->
    mode p = PM_CUSP ->
    exists p' : Point,
      Point_move_point p ty position offset = Ok p' /\
      part p' ty = vadd offset position /\
      part p' (sibling ty) = part p (sibling ty) /\
      pos p' = pos p /\
      mode p' = PM_CUSP.
Proof.
  intros p ty position offset Hty Hmode.
  destruct p as [[px py] [bx by_] [ex ey] m]. simpl in Hmode. subst m.
  destruct position as [x y]. destruct offset as [ox oy].
  destruct Hty as [-> | ->]; unfold Point_move_point; cbn [pos begin end_ mode];
    rewrite length_norm; cbn [bind PointMode_eqb PM_SMOOTH PM_SYMMETRICAL PM_CUSP];
    eexists; (split; [reflexivity |]); repeat split.
Qed.

Lemma cusp_move_leaves_sibling_witness :
  exists p' : Point,
    Point_move_point (anchor_example PM_CUSP) PT_CTRL_END (3, 4) (1, 1) = Ok p' /\
    part p' PT_CTRL_END = vadd (1, 1) (3, 4) /\
    part p' (sibling PT_CTRL_END) = part (anchor_example PM_CUSP) (sibling PT_CTRL_END) /\
    pos p' = pos (anchor_example PM_CUSP) /\
    mode p' = PM_CUSP.
Proof.
  apply (cusp_move_leaves_sibling (anchor_example PM_CUSP) PT_CTRL_END (3, 4) (1, 1));
    [right; reflexivity | reflexivity].
Defined.

(** X2. Moving [PT_POSITION] is a rigid translation in every mode: the
    anchor lands on [position + offset], both handles keep their
    displacement from the anchor, and the mode is kept. *)
Theorem position_move_is_translation :
  forall (p : Point) (position offset : Vec2),
    exists p' : Point,
      Point_move_point p PT_POSITION position offset = Ok p' /\
      pos p' = vadd offset position /\
      vsub (begin p') (pos p') = vsub (begin p) (pos p) /\
      vsub (end_ p') (pos p') = vsub (end_ p) (pos p) /\
      mode p' = mode p.
Proof.
  intros [[px py] [bx by_] [ex ey] m] [x y] [ox oy].
  eexists. split; [reflexivity |]. cbn [pos begin end_ mode].
  unfold vadd, vsub. cbn [fst snd].
  repeat split; apply vec_eq; ring.
Qed.

(** X3. Two [PT_POSITION] moves in a row give the same point as the second
    move alone; moving the anchor to where it already is changes nothing. *)
Theorem position_moves_compose :
  forall (p : Point) (t1 t2 : Vec2),
    (p1 <- Point_move_point p PT_POSITION t1 (0, 0) ;;
     Point_move_point p1 PT_POSITION t2 (0, 0)) =
    Point_move_point p PT_POSITION t2 (0, 0) /\
    Point_move_point p PT_POSITION (pos p) (0, 0) = Ok p.
Proof.
  intros [[px py] [bx by_] [ex ey] m] [x1 y1] [x2 y2].
  unfold Point_move_point. cbn [pos begin end_ mode bind PT_POSITION].
  split; f_equal; f_equal; apply vec_eq; ring.
Qed.

(** X4. [move_point] never raises and never changes the mode, and a handle
    move never moves the anchor. *)
Theorem move_point_total_keeps_mode :
  forall (p : Point) (ty : PointType) (position offset : Vec2),
    exists p' : Point,
      Point_move_point p ty position offset = Ok p' /\
      mode p' = mode p /\
      (ty <> PT_POSITION -> pos p' = pos p).
Proof.
  intros [[px py] [bx by_] [ex ey] m] ty [x y] [ox oy].
  destruct ty; unfold Point_move_point; cbn [pos begin end_ mode].
  - eexists. split; [reflexivity |]. split; [reflexivity |].
    intros H. exfalso. apply H. reflexivity.
  - rewrite length_norm. cbn [bind].
    destruct m; cbn [PointMode_eqb PM_SMOOTH PM_SYMMETRICAL].
    + eexists. repeat split.
    + destruct (normal_total (opposite (ox + x - px, oy + y - py))
                  (norm (ex - px, ey - py))) as [[wx wy] Hw].
      rewrite Hw. cbn [bind]. eexists. repeat split.
    + eexists. repeat split.
  - rewrite length_norm. cbn [bind].
    destruct m; cbn [PointMode_eqb PM_SMOOTH PM_SYMMETRICAL].
    + eexists. repeat split.
    + destruct (normal_total (opposite (ox + x - px, oy + y - py))
                  (norm (bx - px, by_ - py))) as [[wx wy] Hw].
      rewrite Hw. cbn [bind]. eexists. repeat split.
    + eexists. repeat split.
Qed.

Lemma mirrored_after_symmetrical_move (p : Point) (ty : PointType)
    (position offset : Vec2) :
  mode p = PM_SYMMETRICAL -> mirrored p ->
  exists p' : Point,
    Point_move_point p ty position offset = Ok p' /\
    mode p' = PM_SYMMETRICAL /\ mirrored p'.
Proof.
  intros Hmode Hmir.
  destruct p as [[px py] [bx by_] [ex ey] m]. simpl in Hmode. subst m.
  destruct position as [x y]. destruct offset as [ox oy].
  unfold mirrored, vsub, opposite in *. cbn [pos begin end_ fst snd] in *.
  inversion Hmir as [[Hx Hy]].
  destruct ty; unfold Point_move_point; cbn [pos begin end_ mode];
    try rewrite length_norm; cbn [bind PointMode_eqb PM_SMOOTH PM_SYMMETRICAL];
    eexists; (split; [reflexivity |]); (split; [reflexivity |]);
    cbn [pos begin end_ fst snd opposite]; apply vec_eq; lra.
Qed.

(** X5. A point built by [Point(x, y, dist)] has mirrored handles and is in
    Symmetrical mode, and it stays so under every sequence of [move_point]
    calls, whatever parts are moved and wherever to; no call raises. *)
Theorem new_point_stays_mirrored :
  forall (x y dist : Number) (moves : list (PointType * Vec2 * Vec2)),
    exists p' : Point,
      run_moves (Point_init x y dist) moves = Ok p' /\
      mode p' = PM_SYMMETRICAL /\
      mirrored p'.
Proof.
  intros x y dist moves.
  assert (Hinit : mode (Point_init x y dist) = PM_SYMMETRICAL /\
                  mirrored (Point_init x y dist)).
  { split; [reflexivity |]. unfold mirrored, vsub, opposite. simpl. apply vec_eq; ring. }
  revert Hinit. generalize (Point_init x y dist) as p.
  unfold run_moves. induction moves as [| [[ty position] offset] moves IH];
    intros p [Hmode Hmir].
  - exists p. split; [reflexivity |]. split; assumption.
  - destruct (mirrored_after_symmetrical_move p ty position offset Hmode Hmir)
      as (p1 & Hmove & Hmode1 & Hmir1).
    cbn [for_each]. rewrite Hmove. cbn [bind]. apply IH. split; assumption.
Qed.

(** ** Further properties of the hit tests *)

Lemma outside_iff (location : Vec2) (margin : R) (q : Vec2) :
  Rgtb (Rabs (fst location - fst q)) margin
  || Rgtb (Rabs (snd location - snd q)) margin = false <->
  within location margin q.
Proof.
  unfold within. rewrite orb_false_iff. split; intros [Hx Hy].
  - split; apply Rgtb_false_inv; assumption.
  - split; apply Rgtb_false; assumption.
Qed.

Lemma find_point_loop_cons (ty : PointType) (q : Vec2)
    (rest : list (PointType * Vec2)) (location : Vec2) (margin : R) :
  find_point_loop ((ty, q) :: rest) location margin =
  if Rgtb (Rabs (fst location - fst q)) margin
     || Rgtb (Rabs (snd location - snd q)) margin
  then find_point_loop rest location margin
  else Some (ty, vsub location q).
Proof. destruct location, q. reflexivity. Qed.

Lemma find_point_loop_within (ty : PointType) (q : Vec2)
    (rest : list (PointType * Vec2)) (location : Vec2) (margin : R) :
  within location margin q ->
  find_point_loop ((ty, q) :: rest) location margin = Some (ty, vsub location q).
Proof.
  intros H. rewrite find_point_loop_cons, (proj2 (outside_iff _ _ _) H). reflexivity.
Qed.

Lemma find_point_loop_outside (ty : PointType) (q : Vec2)
    (rest : list (PointType * Vec2)) (location : Vec2) (margin : R) :
  ~ within location margin q ->
  find_point_loop ((ty, q) :: rest) location margin =
  find_point_loop rest location margin.
Proof.
  intros H. rewrite find_point_loop_cons.
  destruct (Rgtb (Rabs (fst location - fst q)) margin
            || Rgtb (Rabs (snd location - snd q)) margin) eqn:Hout; [reflexivity |].
  exfalso. apply H, outside_iff, Hout.
Qed.

(** X6. [Point.find_point] returns the first of anchor, [begin], [end] that
    is within the margin on both axes, with the location minus that part as
    offset: the anchor wins over the handles and [begin] over [end]; it
    returns [None] when none of the three is within the margin. *)
Theorem Point_find_point_first_within :
  forall (p : Point) (location : Vec2) (margin : Number),
    (within location margin (pos p) ->
     Point_find_point p location margin =
       Some (PT_POSITION, vsub location (pos p))) /\
    (~ within location margin (pos p) -> within location margin (begin p) ->
     Point_find_point p location margin =
       Some (PT_CTRL_BEGIN, vsub location (begin p))) /\
    (~ within location margin (pos p) -> ~ within location margin (begin p) ->
     within location margin (end_ p) ->
     Point_find_point p location margin =
       Some (PT_CTRL_END, vsub location (end_ p))) /\
    (~ within location margin (pos p) -> ~ within location margin (begin p) ->
     ~ within location margin (end_ p) ->
     Point_find_point p location margin = None).
Proof.
  intros p location margin. unfold Point_find_point. repeat split.
  - intros H. apply find_point_loop_within, H.
  - intros Hp Hb. rewrite find_point_loop_outside by exact Hp.
    apply find_point_loop_within, Hb.
  - intros Hp Hb He. rewrite !find_point_loop_outside by assumption.
    apply find_point_loop_within, He.
  - intros Hp Hb He. rewrite !find_point_loop_outside by assumption. reflexivity.
Qed.

Lemma negative_margin_outside (location : Vec2) (margin : R) (q : Vec2) :
  margin < 0 -> ~ within location margin q.
Proof.
  intros Hm [Hx _]. pose proof (Rabs_pos (fst location - fst q)). lra.
Qed.

Lemma Bezier_find_point_loop_skipped (is_cubic : bool) (location : Vec2) (margin : R) :
  forall (l : list Point) (a : nat),
    Forall (skipped is_cubic location margin) l ->
    Bezier_find_point_loop is_cubic (enumerate_from a l) location margin = None.
Proof.
  induction l as [| p l IH]; intros a Hall; [reflexivity |].
  inversion Hall as [| ? ? Hp Hrest]. subst.
  rewrite enumerate_from_cons. cbn [Bezier_find_point_loop].
  unfold skipped in Hp. destruct is_cubic.
  - rewrite Hp. apply IH, Hrest.
  - destruct Hp as [Hnone | [ofs Hend]].
    + rewrite Hnone. apply IH, Hrest.
    + rewrite Hend. simpl. apply IH, Hrest.
Qed.

(** X7. With a negative margin nothing is ever hit: the hit test of a point
    and the hit test of a curve, in either mode, return [None]. *)
Theorem negative_margin_hits_nothing :
  forall (location : Vec2) (margin : Number),
    margin < 0 ->
    (forall p : Point, Point_find_point p location margin = None) /\
    (forall b : Bezier, Bezier_find_point b location margin = None).
Proof.
  intros location margin Hm.
  assert (Hpoint : forall p : Point, Point_find_point p location margin = None).
  { intros p. unfold Point_find_point.
    rewrite !find_point_loop_outside by (apply negative_margin_outside, Hm).
    reflexivity. }
  split; [exact Hpoint |].
  intros b. unfold Bezier_find_point. rewrite enumerate_enumerate_from.
  apply Bezier_find_point_loop_skipped.
  apply Forall_forall. intros p _. unfold skipped.
  destruct (_is_cubic b); [apply Hpoint | left; apply Hpoint].
Qed.

Lemma negative_margin_hits_nothing_witness :
  (forall p : Point, Point_find_point p (0, 0) (-1) = None) /\
  (forall b : Bezier, Bezier_find_point b (0, 0) (-1) = None).
Proof. apply (negative_margin_hits_nothing (0, 0) (-1)). lra. Defined.

Lemma Bezier_find_point_loop_found (is_cubic : bool) (location : Vec2) (margin : R) :
  forall (l : list Point) (a : nat) (i : Z) (pty : PointType) (ofs : Vec2),
    Bezier_find_point_loop is_cubic (enumerate_from a l) location margin =
      Some (i, pty, ofs) ->
    exists (k : nat) (p : Point),
      i = Z.of_nat (a + k) /\
      nth_error l k = Some p /\
      Point_find_point p location margin = Some (pty, ofs) /\
      Forall (skipped is_cubic location margin) (firstn k l).
Proof.
  induction l as [| p l IH]; intros a i pty ofs; [discriminate |].
  rewrite enumerate_from_cons. cbn [Bezier_find_point_loop].
  destruct (Point_find_point p location margin) as [[pty' ofs'] |] eqn:Hp.
  - destruct (negb is_cubic && PointType_eqb pty' PT_CTRL_END) eqn:Hskip.
    + intros H. destruct (IH _ _ _ _ H) as (k & q & Hi & Hq & Hfind & Hpre).
      exists (S k), q. split; [lia |]. split; [exact Hq |]. split; [exact Hfind |].
      cbn [firstn]. constructor; [| exact Hpre].
      apply andb_true_iff in Hskip. destruct Hskip as [Hc He].
      destruct is_cubic; [discriminate |]. destruct pty'; try discriminate.
      right. exists ofs'. exact Hp.
    + intros H. inversion H. subst. exists 0%nat, p.
      split; [lia |]. split; [reflexivity |]. split; [exact Hp |]. constructor.
  - intros H. destruct (IH _ _ _ _ H) as (k & q & Hi & Hq & Hfind & Hpre).
    exists (S k), q. split; [lia |]. split; [exact Hq |]. split; [exact Hfind |].
    cbn [firstn]. constructor; [| exact Hpre].
    destruct is_cubic; [exact Hp | left; exact Hp].
Qed.

(** X8. When [Bezier.find_point] returns [(i, part_type, offset)], [i] is
    the index of a point of the curve, that point's own hit test returns
    [(part_type, offset)], the offset is the location minus that part, and
    every point before index [i] was skipped by the search. *)
Theorem Bezier_find_point_sound :
  forall (b : Bezier) (location : Vec2) (margin : Number)
         (i : Z) (pty : PointType) (ofs : Vec2),
    Bezier_find_point b location margin = Some (i, pty, ofs) ->
    (0 <= i < len (_points b))%Z /\
    exists p : Point,
      Bezier_getitem b i = Ok p /\
      Point_find_point p location margin = Some (pty, ofs) /\
      ofs = vsub location (part p pty) /\
      Forall (skipped (_is_cubic b) location margin) (firstn (Z.to_nat i) (_points b)).
Proof.
  intros b location margin i pty ofs H. unfold Bezier_find_point in H.
  rewrite enumerate_enumerate_from in H.
  destruct (Bezier_find_point_loop_found _ _ _ _ _ _ _ _ H)
    as (k & p & Hi & Hk & Hfind & Hpre).
  simpl in Hi. subst i.
  assert (Hlt : (k < List.length (_points b))%nat)
    by (apply nth_error_Some; rewrite Hk; discriminate).
  split; [unfold len; lia |].
  exists p. split.
  - unfold Bezier_getitem. rewrite (getitem_in_range _ _ p Hlt).
    f_equal. apply nth_error_nth, Hk.
  - split; [exact Hfind |].
    split; [apply (Point_find_point_offset _ _ _ _ _ Hfind) |].
    rewrite Nat2Z.id. exact Hpre.
Qed.

Lemma Bezier_find_point_sound_witness :
  (0 <= 1 < len (_points (curve_example BM_QUADRATIC)))%Z /\
  exists p : Point,
    Bezier_getitem (curve_example BM_QUADRATIC) 1 = Ok p /\
    Point_find_point p (-10, 0) 2 = Some (PT_POSITION, (-10 - -10, 0 - 0)) /\
    (-10 - -10, 0 - 0) = vsub (-10, 0) (part p PT_POSITION) /\
    Forall (skipped (_is_cubic (curve_example BM_QUADRATIC)) (-10, 0) 2)
           (firstn (Z.to_nat 1) (_points (curve_example BM_QUADRATIC))).
Proof.
  apply (Bezier_find_point_sound (curve_example BM_QUADRATIC) (-10, 0) 2
           1%Z PT_POSITION (-10 - -10, 0 - 0)).
  apply quadratic_hit_test_continues.
Defined.

(** X9. [Bezier.find_point] returns [None] exactly when the search skips
    every point of the curve; in particular on a curve without points. *)
Theorem Bezier_find_point_none_iff :
  forall (b : Bezier) (location : Vec2) (margin : Number),
    (Bezier_find_point b location margin = None <->
     Forall (skipped (_is_cubic b) location margin) (_points b)) /\
    (_points b = [] -> Bezier_find_point b location margin = None).
Proof.
  intros b location margin.
  assert (Hiff : Bezier_find_point b location margin = None <->
                 Forall (skipped (_is_cubic b) location margin) (_points b)).
  { unfold Bezier_find_point. rewrite enumerate_enumerate_from.
    split; [| apply Bezier_find_point_loop_skipped].
    generalize 0%nat. induction (_points b) as [| p l IH]; intros a H; [constructor |].
    rewrite enumerate_from_cons in H. cbn [Bezier_find_point_loop] in H.
    destruct (Point_find_point p location margin) as [[pty ofs] |] eqn:Hp.
    - destruct (negb (_is_cubic b) && PointType_eqb pty PT_CTRL_END) eqn:Hskip;
        [| discriminate].
      constructor; [| apply (IH _ H)].
      apply andb_true_iff in Hskip. destruct Hskip as [Hc He].
      unfold skipped. destruct (_is_cubic b); [discriminate |].
      destruct pty; try discriminate. right. exists ofs. exact Hp.
    - constructor; [| apply (IH _ H)].
      unfold skipped. destruct (_is_cubic b); [exact Hp | left; exact Hp]. }
  split; [exact Hiff |].
  intros Hnil. apply Hiff. rewrite Hnil. constructor.
Qed.

(** ** The derived views of a [Bezier] *)

Lemma bake_points_items (b : Bezier) :
  Bezier_bake_points b =
  flat_map (baked_items (_is_cubic b) (len (_points b) - 1)) (enumerate (_points b)).
Proof.
  unfold Bezier_bake_points. destruct (_is_cubic b).
  - rewrite (fold_left_append (baked_items true (len (_points b) - 1)));
      [reflexivity |].
    intros acc [i p]; unfold baked_items;
      repeat match goal with |- context [if ?c then _ else _] => destruct c end;
      reflexivity.
  - rewrite (fold_left_append (baked_items false (len (_points b) - 1)));
      [reflexivity |].
    intros acc [i p]; unfold baked_items;
      repeat match goal with |- context [if ?c then _ else _] => destruct c end;
      reflexivity.
Qed.

Lemma bake_control_points_items (b : Bezier) :
  Bezier_bake_control_points b =
  flat_map (control_items (_is_cubic b) (len (_points b) - 1)) (enumerate (_points b)).
Proof.
  unfold Bezier_bake_control_points. destruct (_is_cubic b).
  - rewrite (fold_left_append (control_items true (len (_points b) - 1)));
      [reflexivity |].
    intros acc [i p]; unfold control_items;
      repeat match goal with |- context [if ?c then _ else _] => destruct c end;
      cbn [negb]; rewrite ?app_nil_r; reflexivity.
  - rewrite (fold_left_append (control_items false (len (_points b) - 1)));
      [reflexivity |].
    intros acc [i p]; unfold control_items;
      repeat match goal with |- context [if ?c then _ else _] => destruct c end;
      cbn [negb]; rewrite ?app_nil_r; reflexivity.
Qed.

Lemma bake_control_lines_items (b : Bezier) :
  Bezier_bake_control_lines b =
  flat_map (line_items (_is_cubic b) (len (_points b) - 1)) (enumerate (_points b)).
Proof.
  unfold Bezier_bake_control_lines. destruct (_is_cubic b).
  - rewrite (fold_left_append (line_items true (len (_points b) - 1)));
      [reflexivity |].
    intros acc [i p]; unfold line_items;
      repeat match goal with |- context [if ?c then _ else _] => destruct c end;
      cbn [negb]; rewrite ?app_nil_r, <- ?app_assoc; reflexivity.
  - rewrite (fold_left_append (line_items false (len (_points b) - 1)));
      [reflexivity |].
    intros acc [i p]; unfold line_items;
      repeat match goal with |- context [if ?c then _ else _] => destruct c end;
      cbn [negb]; rewrite ?app_nil_r, <- ?app_assoc; reflexivity.
Qed.

Lemma bake_pos_points_map (b : Bezier) : Bezier_bake_pos_points b = map pos (_points b).
Proof.
  unfold Bezier_bake_pos_points.
  rewrite (fold_left_append (fun p => [pos p])) by reflexivity.
  simpl. induction (_points b) as [| p l IH]; simpl; [| rewrite IH]; reflexivity.
Qed.

Lemma flat_map_enumerate_anchor {A : Type} (f : Point -> A) :
  forall (l : list Point) (a : nat),
    flat_map (fun item : Z * Point => [f (snd item)]) (enumerate_from a l) = map f l.
Proof.
  induction l as [| p l IH]; intros a; [reflexivity |].
  rewrite enumerate_from_cons. simpl. rewrite IH. reflexivity.
Qed.

Lemma flat_map_split_perm {X A : Type} (f g : X -> list A) (l : list X) :
  Permutation (flat_map (fun x => f x ++ g x) l) (flat_map f l ++ flat_map g l).
Proof.
  induction l as [| x l IH]; simpl; [constructor |].
  rewrite <- !app_assoc. apply Permutation_app_head.
  rewrite IH. apply Permutation_app_swap_app.
Qed.

Lemma flat_map_perm {X A : Type} (f g : X -> list A) (l : list X) :
  (forall x, Permutation (f x) (g x)) ->
  Permutation (flat_map f l) (flat_map g l).
Proof.
  intros H. induction l as [| x l IH]; simpl; [constructor |].
  apply Permutation_app; [apply H | exact IH].
Qed.

Lemma map_flat_map_list {X A B : Type} (h : A -> B) (f : X -> list A) (l : list X) :
  map h (flat_map f l) = flat_map (fun x => map h (f x)) l.
Proof.
  induction l as [| x l IH]; simpl; [reflexivity |]. rewrite map_app, IH. reflexivity.
Qed.

Lemma baked_items_perm (c : bool) (last : Z) (item : Z * Point) :
  Permutation (baked_items c last item) ([pos (snd item)] ++ control_items c last item).
Proof.
  destruct item as [i p]. unfold baked_items, control_items. cbn [snd app].
  destruct c; [destruct (i =? 0)%Z; [| destruct (i =? last)%Z]
              | destruct (i =? last)%Z]; cbn [negb];
    first [apply Permutation_refl | apply perm_swap].
Qed.

(** X10. For every curve, in either mode and with any number of points, the
    flattened control polygon [bake_points] is a rearrangement of the
    anchors [bake_pos_points] followed by the active handles
    [bake_control_points]; so its length is the sum of their lengths. *)
Theorem bake_points_are_anchors_and_handles :
  forall b : Bezier,
    Permutation (Bezier_bake_points b)
                (Bezier_bake_pos_points b ++ Bezier_bake_control_points b) /\
    len (Bezier_bake_points b) =
      (len (Bezier_bake_pos_points b) + len (Bezier_bake_control_points b))%Z /\
    Bezier_bake_pos_points b = map pos (_points b).
Proof.
  intros b.
  assert (Hperm : Permutation (Bezier_bake_points b)
                    (Bezier_bake_pos_points b ++ Bezier_bake_control_points b)).
  { rewrite bake_points_items, bake_control_points_items, bake_pos_points_map.
    rewrite enumerate_enumerate_from.
    rewrite <- (flat_map_enumerate_anchor pos (_points b) 0).
    rewrite <- flat_map_split_perm. apply flat_map_perm. intros item.
    apply baked_items_perm. }
  split; [exact Hperm |]. split; [| apply bake_pos_points_map].
  unfold len. rewrite (Permutation_length Hperm), length_app. lia.
Qed.

Lemma line_items_handles_perm (c : bool) (last : Z) (item : Z * Point) :
  Permutation (map snd (line_items c last item)) (control_items c last item).
Proof.
  destruct item as [i p]. unfold line_items, control_items.
  destruct c; [destruct (i =? 0)%Z; [| destruct (i =? last)%Z]
              | destruct (i =? last)%Z]; cbn [negb map snd];
    first [apply Permutation_refl | apply perm_swap].
Qed.

Lemma line_items_quadratic (last : Z) (item : Z * Point) :
  map snd (line_items false last item) = control_items false last item.
Proof.
  destruct item as [i p]. unfold line_items, control_items.
  destruct (i =? last)%Z; reflexivity.
Qed.

Lemma line_items_source (c : bool) (last : Z) (i : Z) (p : Point) (a h : Vec2) :
  In (a, h) (line_items c last (i, p)) -> a = pos p /\ (h = begin p \/ h = end_ p).
Proof.
  unfold line_items.
  destruct c; [destruct (i =? 0)%Z; [| destruct (i =? last)%Z]
              | destruct (i =? last)%Z]; cbn [negb In];
    intros H; repeat destruct H as [H | H]; try contradiction;
    inversion H; subst; auto.
Qed.

(** X11. Every line of [bake_control_lines] joins the anchor of one point
    of the curve to one of that same point's handles; the handle ends of
    the lines are a rearrangement of [bake_control_points], and in
    quadratic mode they are [bake_control_points] in the same order. *)
Theorem control_lines_join_anchor_to_handle :
  forall b : Bezier,
    (forall a h : Vec2,
       In (a, h) (Bezier_bake_control_lines b) ->
       exists p : Point,
         In p (_points b) /\ a = pos p /\ (h = begin p \/ h = end_ p)) /\
    Permutation (map snd (Bezier_bake_control_lines b)) (Bezier_bake_control_points b) /\
    (_is_cubic b = false ->
     map snd (Bezier_bake_control_lines b) = Bezier_bake_control_points b).
Proof.
  intros b. rewrite bake_control_lines_items, bake_control_points_items.
  split; [| split].
  - intros a h Hin. apply in_flat_map in Hin. destruct Hin as ([i p] & Hitem & Hline).
    exists p. split; [| apply (line_items_source _ _ _ _ _ _ Hline)].
    unfold enumerate in Hitem. apply (in_combine_r _ _ _ _ Hitem).
  - rewrite map_flat_map_list. apply flat_map_perm. intros item.
    apply line_items_handles_perm.
  - intros Hq. rewrite Hq, map_flat_map_list. apply flat_map_ext. intros item.
    apply line_items_quadratic.
Qed.

(** ** The layout of the flattened control polygon *)

Lemma quadratic_items_nth (last : Z) (d : Point) :
  forall (l : list Point) (a k : nat),
    last = (Z.of_nat a + len l - 1)%Z -> (k < List.length l)%nat ->
    nth (2 * k) (flat_map (baked_items false last) (enumerate_from a l)) origin =
      pos (nth k l d) /\
    ((S k < List.length l)%nat ->
     nth (2 * k + 1) (flat_map (baked_items false last) (enumerate_from a l)) origin =
       begin (nth k l d)).
Proof.
  induction l as [| p l IH]; intros a k Hlast Hk; [simpl in Hk; lia |].
  rewrite enumerate_from_cons. cbn [flat_map]. unfold baked_items at 1 3.
  unfold len in Hlast. simpl List.length in *.
  destruct (Z.eqb_spec (Z.of_nat a) last) as [Heq | Hne].
  - assert (List.length l = 0%nat) by lia.
    destruct k; [| lia]. split; [reflexivity | lia].
  - destruct k as [| k].
    + split; [reflexivity |]. intros _. reflexivity.
    + replace (2 * S k)%nat with (S (S (2 * k))) by lia.
      replace (S (S (2 * k)) + 1)%nat with (S (S (2 * k + 1))) by lia.
      cbn [app nth].
      destruct (IH (S a) k) as [Hpos Hbegin]; [unfold len; lia | lia |].
      split; [exact Hpos |]. intros Hk'. apply Hbegin. lia.
Qed.

Lemma cubic_items_tail_nth (last : Z) (d : Point) :
  forall (l : list Point) (a k : nat),
    (0 < a)%nat -> last = (Z.of_nat a + len l - 1)%Z -> (k < List.length l)%nat ->
    nth (3 * k) (flat_map (baked_items true last) (enumerate_from a l)) origin =
      end_ (nth k l d) /\
    nth (3 * k + 1) (flat_map (baked_items true last) (enumerate_from a l)) origin =
      pos (nth k l d) /\
    ((S k < List.length l)%nat ->
     nth (3 * k + 2) (flat_map (baked_items true last) (enumerate_from a l)) origin =
       begin (nth k l d)).
Proof.
  induction l as [| p l IH]; intros a k Ha Hlast Hk; [simpl in Hk; lia |].
  rewrite enumerate_from_cons. cbn [flat_map]. unfold baked_items at 1 3 5.
  unfold len in Hlast. simpl List.length in *.
  destruct (Z.eqb_spec (Z.of_nat a) 0) as [H0 | _]; [lia |].
  destruct (Z.eqb_spec (Z.of_nat a) last) as [Heq | Hne].
  - assert (List.length l = 0%nat) by lia.
    destruct k; [| lia]. split; [reflexivity |]. split; [reflexivity | lia].
  - destruct k as [| k].
    + split; [reflexivity |]. split; [reflexivity |]. intros _. reflexivity.
    + replace (3 * S k)%nat with (S (S (S (3 * k)))) by lia.
      replace (S (S (S (3 * k))) + 1)%nat with (S (S (S (3 * k + 1)))) by lia.
      replace (S (S (S (3 * k))) + 2)%nat with (S (S (S (3 * k + 2)))) by lia.
      cbn [app nth].
      destruct (IH (S a) k) as (Hend & Hpos & Hbegin); [lia | unfold len; lia | lia |].
      split; [exact Hend |]. split; [exact Hpos |]. intros Hk'. apply Hbegin. lia.
Qed.

Lemma bake_points_quadratic_nth (b : Bezier) (k : nat) :
  _is_cubic b = false -> (k < List.length (_points b))%nat ->
  point_at (Bezier_bake_points b) (2 * k) = pos (curve_point b k) /\
  ((S k < List.length (_points b))%nat ->
   point_at (Bezier_bake_points b) (2 * k + 1) = begin (curve_point b k)).
Proof.
  intros Hq Hk. unfold point_at, curve_point.
  rewrite bake_points_items, Hq, enumerate_enumerate_from.
  apply quadratic_items_nth; [simpl; lia | exact Hk].
Qed.

Lemma bake_points_cubic_nth (b : Bezier) (k : nat) :
  _is_cubic b = true -> (S k < List.length (_points b))%nat ->
  point_at (Bezier_bake_points b) (3 * k) = pos (curve_point b k) /\
  point_at (Bezier_bake_points b) (3 * k + 1) = begin (curve_point b k) /\
  point_at (Bezier_bake_points b) (3 * k + 2) = end_ (curve_point b (S k)) /\
  point_at (Bezier_bake_points b) (3 * k + 3) = pos (curve_point b (S k)).
Proof.
  intros Hc Hk. unfold point_at, curve_point.
  rewrite bake_points_items, Hc, enumerate_enumerate_from.
  destruct (_points b) as [| p l] eqn:Hpts; [simpl in Hk; lia |].
  rewrite enumerate_from_cons. cbn [flat_map]. unfold baked_items at 1 3 5 7.
  change (Z.of_nat 0 =? 0)%Z with true. cbv iota. simpl List.length in Hk.
  set (d := Point_init 0 0 10).
  assert (Hlast : (len (p :: l) - 1 = Z.of_nat 1 + len l - 1)%Z)
    by (unfold len; simpl List.length; lia).
  destruct (cubic_items_tail_nth (len (p :: l) - 1) d l 1 k) as (Hend & Hpos & _);
    [lia | exact Hlast | lia |].
  destruct k as [| k].
  - cbn [app nth Nat.mul Nat.add]. split; [reflexivity |]. split; [reflexivity |].
    split; [exact Hend | exact Hpos].
  - destruct (cubic_items_tail_nth (len (p :: l) - 1) d l 1 k) as (_ & Hpos' & Hbegin');
      [lia | exact Hlast | lia |].
    replace (3 * S k)%nat with (S (S (3 * k + 1))) by lia.
    replace (S (S (3 * k + 1)) + 1)%nat with (S (S (3 * k + 2))) by lia.
    replace (S (S (3 * k + 1)) + 2)%nat with (S (S (3 * S k))) by lia.
    replace (S (S (3 * k + 1)) + 3)%nat with (S (S (3 * S k + 1))) by lia.
    cbn [app nth]. split; [exact Hpos' |]. split; [apply Hbegin'; lia |].
    split; [exact Hend | exact Hpos].
Qed.

(** X12. The flattened control polygon is laid out segment by segment.  In
    quadratic mode, for two consecutive points [k] and [k+1] of the curve,
    indices [2k], [2k+1], [2k+2] hold the anchor of [k], the [begin] handle
    of [k] and the anchor of [k+1].  In cubic mode indices [3k .. 3k+3]
    hold the anchor of [k], the [begin] handle of [k], the [end] handle of
    [k+1] and the anchor of [k+1]. *)
Theorem bake_points_layout :
  forall (b : Bezier) (k : nat),
    (S k < List.length (_points b))%nat ->
    (_is_cubic b = false ->
     point_at (Bezier_bake_points b) (2 * k) = pos (curve_point b k) /\
     point_at (Bezier_bake_points b) (2 * k + 1) = begin (curve_point b k) /\
     point_at (Bezier_bake_points b) (2 * k + 2) = pos (curve_point b (S k))) /\
    (_is_cubic b = true ->
     point_at (Bezier_bake_points b) (3 * k) = pos (curve_point b k) /\
     point_at (Bezier_bake_points b) (3 * k + 1) = begin (curve_point b k) /\
     point_at (Bezier_bake_points b) (3 * k + 2) = end_ (curve_point b (S k)) /\
     point_at (Bezier_bake_points b) (3 * k + 3) = pos (curve_point b (S k))).
Proof.
  intros b k Hk. split.
  - intros Hq.
    destruct (bake_points_quadratic_nth b k Hq ltac:(lia)) as [Hpos Hbegin].
    destruct (bake_points_quadratic_nth b (S k) Hq Hk) as [Hnext _].
    split; [exact Hpos |]. split; [apply Hbegin, Hk |].
    replace (2 * k + 2)%nat with (2 * S k)%nat by lia. exact Hnext.
  - intros Hc. apply bake_points_cubic_nth; assumption.
Qed.

Lemma bake_points_layout_witness :
  point_at (Bezier_bake_points (curve_example BM_CUBIC)) (3 * 0) =
    pos (curve_point (curve_example BM_CUBIC) 0) /\
  point_at (Bezier_bake_points (curve_example BM_CUBIC)) (3 * 0 + 1) =
    begin (curve_point (curve_example BM_CUBIC) 0) /\
  point_at (Bezier_bake_points (curve_example BM_CUBIC)) (3 * 0 + 2) =
    end_ (curve_point (curve_example BM_CUBIC) 1) /\
  point_at (Bezier_bake_points (curve_example BM_CUBIC)) (3 * 0 + 3) =
    pos (curve_point (curve_example BM_CUBIC) 1).
Proof.
  apply (proj2 (bake_points_layout (curve_example BM_CUBIC) 0 ltac:(simpl; lia))).
  reflexivity.
Defined.

(** ** The baked curve and the anchors *)

Lemma baked_segment_start (seg : nat -> R -> Vec2) (resolution steps : Z)
    (final : Vec2) (step : nat) :
  (3 <= resolution)%Z -> (Z.of_nat step < steps)%Z ->
  nth_error
    (flat_map (fun s => samples (seg (Z.to_nat s)) (1 / IZR resolution)
                                (Z.to_nat resolution) 0) (range steps) ++ [final])
    (step * Z.to_nat resolution) = Some (seg step 0).
Proof.
  intros Hres Hstep.
  pose proof (baked_sample seg resolution steps final Hres step 0 Hstep ltac:(lia)) as H.
  rewrite Nat.add_0_r in H. rewrite H. do 2 f_equal. simpl. field.
  apply IZR_resolution_nonzero, Hres.
Qed.

(** X13. On valid input the baked polyline starts every segment on that
    segment's first control point: element [step * resolution] of the
    output of [quadratic] is [points[2*step]], and of [cubic] is
    [points[3*step]]; in particular the output starts with [points[0]]. *)
Theorem baked_curve_starts_segments :
  forall (points : list Vec2) (resolution : Z) (step : nat),
    (3 <= resolution)%Z ->
    ((len points mod 2 = 1)%Z -> (3 <= len points)%Z ->
     (Z.of_nat step < (len points - 1) / 2)%Z ->
     exists out : list Vec2,
       quadratic points resolution = Ok out /\
       nth_error out (step * Z.to_nat resolution) = Some (point_at points (2 * step)) /\
       nth_error out 0 = nth_error points 0) /\
    ((4 <= len points)%Z -> ((len points - 4) mod 3 = 0)%Z ->
     (Z.of_nat step < (len points - 4) / 3 + 1)%Z ->
     exists out : list Vec2,
       cubic points resolution = Ok out /\
       nth_error out (step * Z.to_nat resolution) = Some (point_at points (3 * step)) /\
       nth_error out 0 = nth_error points 0).
Proof.
  intros points resolution step Hres. split.
  - intros Hodd Hn Hstep. eexists. split; [apply quadratic_valid; assumption |].
    split.
    + rewrite (baked_segment_start (quadratic_segment points)) by assumption.
      unfold quadratic_segment. rewrite de_casteljau2_start. reflexivity.
    + change 0%nat with (0 * Z.to_nat resolution)%nat at 1.
      rewrite (baked_segment_start (quadratic_segment points)) by lia.
      unfold quadratic_segment. rewrite de_casteljau2_start.
      unfold point_at. simpl. destruct points; [unfold len in Hn; simpl in Hn; lia |].
      reflexivity.
  - intros Hn Hmod Hstep.
    assert (Hseg : cubic_segments (len points) = ((len points - 4) / 3 + 1)%Z)
      by (unfold cubic_segments; destruct (Z.ltb_spec (len points) 4); [lia | reflexivity]).
    eexists. split; [apply cubic_valid; assumption |].
    split.
    + rewrite (baked_segment_start (cubic_segment points)) by (rewrite ?Hseg; assumption).
      unfold cubic_segment. rewrite de_casteljau3_start. reflexivity.
    + change 0%nat with (0 * Z.to_nat resolution)%nat at 1.
      rewrite (baked_segment_start (cubic_segment points)) by (rewrite ?Hseg; lia).
      unfold cubic_segment. rewrite de_casteljau3_start.
      unfold point_at. simpl. destruct points; [unfold len in Hn; simpl in Hn; lia |].
      reflexivity.
Qed.

Lemma baked_curve_starts_segments_witness :
  (exists out : list Vec2,
     quadratic quadratic_example 3 = Ok out /\
     nth_error out (0 * Z.to_nat 3) = Some (point_at quadratic_example (2 * 0)) /\
     nth_error out 0 = nth_error quadratic_example 0) /\
  (exists out : list Vec2,
     cubic cubic_example 3 = Ok out /\
     nth_error out (0 * Z.to_nat 3) = Some (point_at cubic_example (3 * 0)) /\
     nth_error out 0 = nth_error cubic_example 0).
Proof.
  split.
  - apply (proj1 (baked_curve_starts_segments quadratic_example 3 0 ltac:(lia)));
      [reflexivity | unfold len; simpl; lia | reflexivity].
  - apply (proj2 (baked_curve_starts_segments cubic_example 3 0 ltac:(lia)));
      [unfold len; simpl; lia | reflexivity | reflexivity].
Defined.

(** X14. The curve that [bake_curve] returns for a [Bezier] of [n >= 2]
    points passes through every anchor: it has [(n-1) * resolution + 1]
    elements, element [k * resolution] is the anchor of point [k] for every
    point but the last, and its last element is the anchor of the last
    point.  This holds in quadratic and in cubic mode. *)
Theorem baked_curve_passes_through_anchors :
  forall (b : Bezier) (resolution : Z),
    (2 <= len (_points b))%Z ->
    (3 <= resolution)%Z ->
    exists out : list Vec2,
      Bezier_bake_curve b resolution = Ok out /\
      len out = ((len (_points b) - 1) * resolution + 1)%Z /\
      (forall k : nat,
         (S k < List.length (_points b))%nat ->
         nth_error out (k * Z.to_nat resolution) = Some (pos (curve_point b k))) /\
      last out origin = pos (curve_point b (List.length (_points b) - 1)).
Proof.
  intros b resolution Hn Hres. unfold Bezier_bake_curve.
  assert (Hn' : (2 <= List.length (_points b))%nat) by (unfold len in Hn; lia).
  destruct (_is_cubic b) eqn:Hmode.
  - pose proof (bake_points_cubic_length b Hmode Hn) as Hlen.
    assert (H4 : (4 <= len (Bezier_bake_points b))%Z) by lia.
    assert (Hmod : ((len (Bezier_bake_points b) - 4) mod 3 = 0)%Z).
    { rewrite Hlen.
      replace (3 * len (_points b) - 2 - 4)%Z with ((len (_points b) - 2) * 3)%Z by lia.
      apply Z.mod_mul. lia. }
    pose proof (cubic_steps _ H4 Hmod) as Hsteps.
    eexists. split; [apply cubic_valid; assumption |].
    split; [rewrite baked_len by lia; nia |]. split.
    + intros k Hk.
      rewrite (baked_segment_start (cubic_segment (Bezier_bake_points b)))
        by (unfold len in *; lia).
      unfold cubic_segment. rewrite de_casteljau3_start.
      f_equal. apply (bake_points_cubic_nth b k Hmode Hk).
    + rewrite baked_last, <- nth_last.
      destruct (bake_points_cubic_nth b (List.length (_points b) - 2) Hmode
                  ltac:(lia)) as (_ & _ & _ & Hlast).
      replace (S (List.length (_points b) - 2)) with (List.length (_points b) - 1)%nat
        in Hlast by lia.
      rewrite <- Hlast. unfold point_at. f_equal. unfold len in Hlen. lia.
  - assert (Hne : _points b <> [])
      by (intros Hnil; rewrite Hnil in Hn'; simpl in Hn'; lia).
    pose proof (bake_points_quadratic_length b Hmode Hne) as Hlen.
    assert (Hodd : (len (Bezier_bake_points b) mod 2 = 1)%Z).
    { rewrite Hlen.
      replace (2 * len (_points b) - 1)%Z with (1 + (len (_points b) - 1) * 2)%Z by lia.
      rewrite Z.mod_add by lia. reflexivity. }
    pose proof (odd_steps _ Hodd) as Hsteps.
    eexists. split; [apply quadratic_valid; [exact Hodd | exact Hres | lia] |].
    split; [rewrite baked_len by lia; nia |]. split.
    + intros k Hk.
      rewrite (baked_segment_start (quadratic_segment (Bezier_bake_points b)))
        by (unfold len in *; lia).
      unfold quadratic_segment. rewrite de_casteljau2_start.
      f_equal. apply (bake_points_quadratic_nth b k Hmode). lia.
    + rewrite baked_last, <- nth_last.
      destruct (bake_points_quadratic_nth b (List.length (_points b) - 1) Hmode
                  ltac:(lia)) as [Hlast _].
      rewrite <- Hlast. unfold point_at. f_equal. unfold len in Hlen. lia.
Qed.

Lemma baked_curve_passes_through_anchors_witness :
  exists out : list Vec2,
    Bezier_bake_curve (curve_example BM_QUADRATIC) 3 = Ok out /\
    len out = ((len (_points (curve_example BM_QUADRATIC)) - 1) * 3 + 1)%Z /\
    (forall k : nat,
       (S k < List.length (_points (curve_example BM_QUADRATIC)))%nat ->
       nth_error out (k * Z.to_nat 3) =
       Some (pos (curve_point (curve_example BM_QUADRATIC) k))) /\
    last out origin =
      pos (curve_point (curve_example BM_QUADRATIC)
             (List.length (_points (curve_example BM_QUADRATIC)) - 1)).
Proof.
  apply (baked_curve_passes_through_anchors (curve_example BM_QUADRATIC) 3);
    [unfold len; simpl; lia | lia].
Defined.

Lemma bake_points_short_invalid (b : Bezier) (resolution : Z) :
  (len (_points b) < 2)%Z ->
  if _is_cubic b
  then cubic_invalid (len (Bezier_bake_points b)) resolution
  else quadratic_invalid (len (Bezier_bake_points b)) resolution.
Proof.
  destruct b as [[| p [| q l]] c]; unfold len; cbn [_points _is_cubic List.length];
    intros Hn; [| | lia];
    destruct c; unfold cubic_invalid, quadratic_invalid; cbv; auto.
Qed.

(** Which inputs [bake_curve] accepts. *)
Lemma bake_curve_cases :
  forall (b : Bezier) (resolution : Z),
    ((exists out, Bezier_bake_curve b resolution = Ok out) <->
     (2 <= len (_points b))%Z /\ (3 <= resolution)%Z) /\
    ((exists msg, Bezier_bake_curve b resolution = Raise (ValueError msg)) <->
     (len (_points b) < 2)%Z \/ (resolution < 3)%Z).
Proof.
  intros b resolution.
  assert (Hinvalid : (len (_points b) < 2)%Z \/ (resolution < 3)%Z ->
                     if _is_cubic b
                     then cubic_invalid (len (Bezier_bake_points b)) resolution
                     else quadratic_invalid (len (Bezier_bake_points b)) resolution).
  { intros [Hn | Hres]; [apply bake_points_short_invalid, Hn |].
    destruct (_is_cubic b); unfold cubic_invalid, quadratic_invalid; auto. }
  assert (Hvalid : (2 <= len (_points b))%Z /\ (3 <= resolution)%Z ->
                   exists out, Bezier_bake_curve b resolution = Ok out).
  { intros [Hn Hres].
    unfold Bezier_bake_curve. destruct (_is_cubic b) eqn:Hmode.
    - apply cubic_ok_iff. rewrite (bake_points_cubic_length b Hmode Hn).
      unfold cubic_invalid.
      replace (3 * len (_points b) - 2 - 4)%Z with ((len (_points b) - 2) * 3)%Z by lia.
      rewrite Z.mod_mul by lia. lia.
    - apply quadratic_ok_iff.
      rewrite (bake_points_quadratic_length b Hmode)
        by (intros Hnil; rewrite Hnil in Hn; unfold len in Hn; simpl in Hn; lia).
      unfold quadratic_invalid.
      replace (2 * len (_points b) - 1)%Z with (1 + (len (_points b) - 1) * 2)%Z by lia.
      rewrite Z.mod_add by lia. change (1 mod 2)%Z with 1%Z. lia. }
  assert (Hraise : (len (_points b) < 2)%Z \/ (resolution < 3)%Z ->
                   exists msg, Bezier_bake_curve b resolution = Raise (ValueError msg)).
  { intros H. apply Hinvalid in H. unfold Bezier_bake_curve.
    destruct (_is_cubic b); [apply cubic_raises | apply quadratic_raises]; exact H. }
  split; split.
  - intros [out Hout].
    destruct (Z.le_gt_cases 2 (len (_points b))) as [Hn | Hn];
      destruct (Z.le_gt_cases 3 resolution) as [Hr | Hr]; try (split; assumption);
      (destruct Hraise as [msg Hmsg]; [lia |]; congruence).
  - exact Hvalid.
  - intros [msg Hmsg].
    destruct (Z.le_gt_cases 2 (len (_points b))) as [Hn | Hn]; [| left; lia].
    destruct (Z.le_gt_cases 3 resolution) as [Hr | Hr]; [| right; lia].
    destruct Hvalid as [out Hout]; [split; assumption |]. congruence.
  - exact Hraise.
Qed.

(** X15. [bake_curve] returns a curve exactly when the [Bezier] has at
    least two points and the resolution is at least 3; in every other
    case, an empty or one-point curve included, it raises [ValueError]. *)
Theorem bake_curve_ok_iff :
  forall (b : Bezier) (resolution : Z),
    ((exists out, Bezier_bake_curve b resolution = Ok out) <->
     (2 <= len (_points b))%Z /\ (3 <= resolution)%Z) /\
    ((exists msg, Bezier_bake_curve b resolution = Raise (ValueError msg)) <->
     (len (_points b) < 2)%Z \/ (resolution < 3)%Z).
Proof. exact bake_curve_cases. Qed.

(** ** Baking commutes with affine maps *)

Lemma flat_map_ext_In {X A : Type} (f g : X -> list A) (l : list X) :
  (forall x, In x l -> f x = g x) -> flat_map f l = flat_map g l.
Proof.
  induction l as [| x l IH]; intros H; simpl; [reflexivity |].
  rewrite (H x) by (left; reflexivity).
  rewrite IH by (intros y Hy; apply H; right; exact Hy). reflexivity.
Qed.

Lemma len_map {A B : Type} (f : A -> B) (l : list A) : len (map f l) = len l.
Proof. unfold len. rewrite length_map. reflexivity. Qed.

Section AffineInvariance.

Variables (a b c d : R) (t : Vec2).

Let T : Vec2 -> Vec2 := affine a b c d t.

Lemma lerp2_affine (p q : Vec2) (r : R) : lerp2 (T p) (T q) r = T (lerp2 p q r).
Proof.
  destruct p as [px py], q as [qx qy]. unfold T, affine, lerp2. cbn [fst snd].
  apply vec_eq; ring.
Qed.

Lemma samples_affine (f g : R -> Vec2) (incr : R) (k : nat) :
  (forall r, g r = T (f r)) ->
  forall r, samples g incr k r = map T (samples f incr k r).
Proof.
  intros Hfg. induction k as [| k IH]; intros r; [reflexivity |].
  simpl. rewrite Hfg, IH. reflexivity.
Qed.

Lemma point_at_affine (points : list Vec2) (i : nat) :
  (i < List.length points)%nat -> point_at (map T points) i = T (point_at points i).
Proof.
  intros Hi. unfold point_at.
  rewrite (nth_indep _ origin (T origin)) by (rewrite (length_map T points); exact Hi).
  apply map_nth.
Qed.

Lemma last_affine (points : list Vec2) :
  points <> [] -> last (map T points) origin = T (last points origin).
Proof.
  intros Hne. rewrite <- !nth_last. rewrite (length_map T points).
  apply point_at_affine. destruct points; [contradiction | simpl; lia].
Qed.

Lemma quadratic_affine (points : list Vec2) (resolution : Z) :
  quadratic (map T points) resolution = map_result T (quadratic points resolution).
Proof.
  destruct (quadratic_valid_or_invalid (len points) resolution)
    as [Hinv | (Hodd & Hres & Hn)].
  - unfold quadratic. rewrite len_map.
    unfold quadratic_invalid in Hinv.
    destruct (Z.eqb_spec (len points mod 2) 1); cbn [py_assert bind map_result];
      [| reflexivity].
    destruct (Z.leb_spec 3 resolution); cbn [py_assert bind map_result]; [| reflexivity].
    destruct (Z.leb_spec 3 (len points)); cbn [py_assert bind map_result];
      [lia | reflexivity].
  - pose proof (odd_steps _ Hodd) as Hsteps.
    rewrite (quadratic_valid points resolution Hodd Hres Hn).
    rewrite quadratic_valid by (rewrite ?len_map; assumption).
    cbn [map_result]. f_equal. rewrite map_app, map_flat_map_list. cbn [map].
    rewrite len_map.
    rewrite last_affine by (intros ->; unfold len in Hn; simpl in Hn; lia).
    f_equal. apply flat_map_ext_In. intros step Hin. apply range_In in Hin.
    apply samples_affine. intros r. unfold quadratic_segment, de_casteljau2.
    rewrite !point_at_affine by (unfold len in *; lia).
    rewrite !lerp2_affine. reflexivity.
Qed.

Lemma cubic_affine (points : list Vec2) (resolution : Z) :
  cubic (map T points) resolution = map_result T (cubic points resolution).
Proof.
  destruct (cubic_valid_or_invalid (len points) resolution)
    as [Hinv | (Hn & Hmod & Hres)].
  - unfold cubic. rewrite len_map.
    unfold cubic_invalid in Hinv.
    destruct (Z.leb_spec 4 (len points)); cbn [py_assert bind map_result];
      [| reflexivity].
    destruct (Z.eqb_spec ((len points - 4) mod 3) 0); cbn [py_assert bind map_result];
      [| reflexivity].
    destruct (Z.leb_spec 3 resolution); cbn [py_assert bind map_result];
      [lia | reflexivity].
  - pose proof (cubic_steps _ Hn Hmod) as Hsteps.
    rewrite (cubic_valid points resolution Hn Hmod Hres).
    rewrite cubic_valid by (rewrite ?len_map; assumption).
    cbn [map_result]. f_equal. rewrite map_app, map_flat_map_list. cbn [map].
    rewrite len_map.
    rewrite last_affine by (intros ->; unfold len in Hn; simpl in Hn; lia).
    f_equal. apply flat_map_ext_In. intros step Hin. apply range_In in Hin.
    apply samples_affine. intros r. unfold cubic_segment, de_casteljau3.
    rewrite !point_at_affine by (unfold len in *; lia).
    rewrite !lerp2_affine. reflexivity.
Qed.

End AffineInvariance.

(** X16. Baking commutes with every affine map of the plane (translation,
    scaling, rotation, shear): baking the mapped control points gives the
    mapped baked curve, and raises the same error when the input is
    refused.  This holds for [quadratic] and for [cubic], on every input. *)
Theorem baking_commutes_with_affine_maps :
  forall (a b c d : Number) (t : Vec2) (points : list Vec2) (resolution : Z),
    quadratic (map (affine a b c d t) points) resolution =
      map_result (affine a b c d t) (quadratic points resolution) /\
    cubic (map (affine a b c d t) points) resolution =
      map_result (affine a b c d t) (cubic points resolution).
Proof.
  intros a b c d t points resolution. split.
  - apply quadratic_affine.
  - apply cubic_affine.
Qed.

(** ** Which check a baker reports *)

(** X17. The bakers report the first check that fails, in the order the
    source makes them.  [quadratic] reports an even count (the empty list
    included) before a low resolution, and a low resolution before a
    count below 3; [cubic] reports a count below 4 (the empty list
    included) before a count that is not 4 plus a multiple of 3, and that
    before a low resolution. *)
Theorem bakers_report_first_failed_check :
  forall (points : list Vec2) (resolution : Z),
    ((len points mod 2 <> 1)%Z ->
     quadratic points resolution =
       Raise (ValueError "An odd number of points must be provided.")) /\
    ((len points mod 2 = 1)%Z -> (resolution < 3)%Z ->
     quadratic points resolution = Raise (ValueError "Resolution is too low.")) /\
    ((len points mod 2 = 1)%Z -> (3 <= resolution)%Z -> (len points < 3)%Z ->
     quadratic points resolution = Raise (ValueError "Number of points is too low.")) /\
    ((len points < 4)%Z ->
     cubic points resolution = Raise (ValueError "Number of points is too low.")) /\
    ((4 <= len points)%Z -> ((len points - 4) mod 3 <> 0)%Z ->
     cubic points resolution =
       Raise (ValueError "Too many or too few points provided.")) /\
    ((4 <= len points)%Z -> ((len points - 4) mod 3 = 0)%Z -> (resolution < 3)%Z ->
     cubic points resolution = Raise (ValueError "Resolution is too low.")) /\
    quadratic [] resolution =
      Raise (ValueError "An odd number of points must be provided.") /\
    cubic [] resolution = Raise (ValueError "Number of points is too low.").
Proof.
  intros points resolution. unfold quadratic, cubic.
  repeat split; intros;
    repeat match goal with
           | |- context [(?x =? ?y)%Z] => destruct (Z.eqb_spec x y); try lia
           | |- context [(?x <=? ?y)%Z] => destruct (Z.leb_spec x y); try lia
           end;
    try reflexivity.
Qed.

(** ** [cubic_segments] *)

(** X18. [cubic_segments] inverts the point count of its docstring: for
    [n >= 1] segments, [4 + (n - 1) * 3] points give [n].  Below 4 points it
    gives 0, it is never negative, and from 4 points on it is the number of
    whole segments that fit: [3 * segments + 1 <= x < 3 * segments + 4].  A
    sequence counts as its length, an object without a length as 0, and the
    control polygon of a cubic [Bezier] of [k >= 2] points has [k - 1]
    segments. *)
Theorem cubic_segments_counts_segments :
  forall (n x : Z) (l : list Vec2) (b : Bezier),
    ((1 <= n)%Z -> cubic_segments (4 + (n - 1) * 3) = n) /\
    ((x < 4)%Z -> cubic_segments x = 0%Z) /\
    (0 <= cubic_segments x)%Z /\
    ((4 <= x)%Z ->
     (3 * cubic_segments x + 1 <= x < 3 * cubic_segments x + 4)%Z) /\
    cubic_segments_of (a_sequence l) = cubic_segments_of (a_count (A := Vec2) (len l)) /\
    cubic_segments_of (unsized (A := Vec2)) = 0%Z /\
    (_is_cubic b = true -> (2 <= len (_points b))%Z ->
     cubic_segments_of (a_sequence (Bezier_bake_points b)) = (len (_points b) - 1)%Z).
Proof.
  intros n x l b. unfold cubic_segments_of, cubic_segments.
  split; [| split; [| split; [| split; [| split; [| split]]]]].
  - intros Hn. destruct (Z.ltb_spec (4 + (n - 1) * 3) 4); [lia |].
    replace (4 + (n - 1) * 3 - 4)%Z with ((n - 1) * 3)%Z by lia.
    rewrite Z.div_mul by lia. lia.
  - intros Hx. destruct (Z.ltb_spec x 4); [reflexivity | lia].
  - destruct (Z.ltb_spec x 4); [lia |].
    pose proof (Z.div_pos (x - 4) 3 ltac:(lia) ltac:(lia)). lia.
  - intros Hx. destruct (Z.ltb_spec x 4); [lia |].
    pose proof (Z.div_mod (x - 4) 3 ltac:(lia)).
    pose proof (Z.mod_pos_bound (x - 4) 3 ltac:(lia)). lia.
  - reflexivity.
  - reflexivity.
  - intros Hc Hn. rewrite (bake_points_cubic_length b Hc Hn).
    destruct (Z.ltb_spec (3 * len (_points b) - 2) 4); [lia |].
    replace (3 * len (_points b) - 2 - 4)%Z with ((len (_points b) - 2) * 3)%Z by lia.
    rewrite Z.div_mul by lia. lia.
Qed.

(** ** Interpolation *)

Lemma lerp_between (a b r : R) :
  0 <= r <= 1 -> Rmin a b <= lerp a b r <= Rmax a b.
Proof.
  intros Hr. unfold lerp, Rmin, Rmax. destruct (Rle_dec a b); nra.
Qed.

(** X19. [lerp] returns its first argument at ratio 0 and its second at
    ratio 1, swapping the arguments mirrors the ratio, and for a ratio in
    [[0, 1]] the result lies between the two arguments; outside that range
    the ratio is not clamped.  [lerp2] is [lerp] on each coordinate. *)
Theorem lerp_endpoints_and_range :
  forall (a b r : Number) (p q : Vec2),
    lerp a b 0 = a /\
    lerp a b 1 = b /\
    lerp a b r = lerp b a (1 - r) /\
    (0 <= r <= 1 -> Rmin a b <= lerp a b r <= Rmax a b) /\
    (a < b -> 1 < r -> b < lerp a b r) /\
    (a < b -> r < 0 -> lerp a b r < a) /\
    lerp2 p q r = (lerp (fst p) (fst q) r, lerp (snd p) (snd q) r).
Proof.
  intros a b r p q. unfold lerp, lerp2.
  repeat split; try ring; try (intros; nra).
  - apply (lerp_between a b r H).
  - apply (lerp_between a b r H).
Qed.

Lemma lerp2_in_box (lo hi p q : Vec2) (r : R) :
  0 <= r <= 1 -> in_box lo hi p -> in_box lo hi q -> in_box lo hi (lerp2 p q r).
Proof.
  unfold in_box, lerp2. cbn [fst snd]. intros Hr [Hpx Hpy] [Hqx Hqy].
  repeat split; nra.
Qed.

Lemma samples_in_box (lo hi : Vec2) (f : R -> Vec2) (resolution : Z) :
  (3 <= resolution)%Z ->
  (forall r, 0 <= r <= 1 -> in_box lo hi (f r)) ->
  Forall (in_box lo hi) (samples f (1 / IZR resolution) (Z.to_nat resolution) 0).
Proof.
  intros Hres Hf. apply Forall_forall. intros v Hin.
  apply In_nth_error in Hin. destruct Hin as [j Hj].
  assert (Hlt : (j < Z.to_nat resolution)%nat).
  { rewrite <- (samples_length f (1 / IZR resolution) (Z.to_nat resolution) 0).
    apply nth_error_Some. rewrite Hj. discriminate. }
  rewrite samples_nth_error in Hj by exact Hlt. inversion Hj. subst v.
  apply Hf.
  assert (Hpos : 0 < IZR resolution) by (apply IZR_lt; lia).
  assert (Hj0 : 0 <= INR j) by apply pos_INR.
  assert (Hj1 : INR j <= IZR resolution).
  { rewrite INR_IZR_INZ. apply IZR_le. lia. }
  replace (0 + INR j * (1 / IZR resolution)) with (INR j / IZR resolution)
    by (field; lra).
  split.
  - apply Rmult_le_pos; [exact Hj0 | apply Rlt_le, Rinv_0_lt_compat, Hpos].
  - apply (Rmult_le_reg_r (IZR resolution)); [exact Hpos |].
    unfold Rdiv. rewrite Rmult_assoc, Rinv_l by lra. lra.
Qed.

Lemma point_at_in_box (lo hi : Vec2) (points : list Vec2) (i : nat) :
  Forall (in_box lo hi) points -> (i < List.length points)%nat ->
  in_box lo hi (point_at points i).
Proof.
  intros Hall Hi. rewrite Forall_forall in Hall. apply Hall. apply nth_In, Hi.
Qed.

Lemma last_in_box (lo hi : Vec2) (points : list Vec2) :
  Forall (in_box lo hi) points -> points <> [] -> in_box lo hi (last points origin).
Proof.
  intros Hall Hne. rewrite <- nth_last. apply point_at_in_box; [exact Hall |].
  destruct points; [contradiction | simpl; lia].
Qed.

(** X20. The baked curve stays inside the bounding box of its control
    points: when every point of a valid input lies in an axis-aligned box,
    [quadratic] and [cubic] return a curve all of whose points lie in that
    box. *)
Theorem baked_curve_stays_in_bounding_box :
  forall (lo hi : Vec2) (points : list Vec2) (resolution : Z),
    Forall (in_box lo hi) points ->
    (~ quadratic_invalid (len points) resolution ->
     exists out : list Vec2,
       quadratic points resolution = Ok out /\ Forall (in_box lo hi) out) /\
    (~ cubic_invalid (len points) resolution ->
     exists out : list Vec2,
       cubic points resolution = Ok out /\ Forall (in_box lo hi) out).
Proof.
  intros lo hi points resolution Hbox. split.
  - intros Hvalid.
    destruct (quadratic_valid_or_invalid (len points) resolution)
      as [Hinv | (Hodd & Hres & Hn)]; [contradiction |].
    pose proof (odd_steps _ Hodd) as Hsteps.
    eexists. split; [apply (quadratic_valid _ _ Hodd Hres Hn) |].
    apply Forall_app. split.
    + apply Forall_flat_map, Forall_forall. intros step Hin. apply range_In in Hin.
      apply samples_in_box; [exact Hres |]. intros r Hr.
      unfold quadratic_segment, de_casteljau2.
      repeat apply lerp2_in_box; try exact Hr;
        apply point_at_in_box; try exact Hbox; unfold len in *; lia.
    + constructor; [| constructor]. apply last_in_box; [exact Hbox |].
      intros ->. unfold len in Hn. simpl in Hn. lia.
  - intros Hvalid.
    destruct (cubic_valid_or_invalid (len points) resolution)
      as [Hinv | (Hn & Hmod & Hres)]; [contradiction |].
    pose proof (cubic_steps _ Hn Hmod) as Hsteps.
    eexists. split; [apply (cubic_valid _ _ Hn Hmod Hres) |].
    apply Forall_app. split.
    + apply Forall_flat_map, Forall_forall. intros step Hin. apply range_In in Hin.
      apply samples_in_box; [exact Hres |]. intros r Hr.
      unfold cubic_segment, de_casteljau3.
      repeat apply lerp2_in_box; try exact Hr;
        apply point_at_in_box; try exact Hbox; unfold len in *; lia.
    + constructor; [| constructor]. apply last_in_box; [exact Hbox |].
      intros ->. unfold len in Hn. simpl in Hn. lia.
Qed.

Lemma baked_curve_stays_in_bounding_box_witness :
  (exists out : list Vec2,
     quadratic quadratic_example 3 = Ok out /\ Forall (in_box (0, 0) (10, 10)) out) /\
  (exists out : list Vec2,
     cubic cubic_example 3 = Ok out /\ Forall (in_box (0, 0) (10, 10)) out).
Proof.
  split.
  - apply (proj1 (baked_curve_stays_in_bounding_box (0, 0) (10, 10) quadratic_example 3
                    ltac:(repeat constructor; simpl; lra))).
    intros [H | [H | H]]; [discriminate H | unfold len in H; simpl in H; lia | lia].
  - apply (proj2 (baked_curve_stays_in_bounding_box (0, 0) (10, 10) cubic_example 3
                    ltac:(repeat constructor; simpl; lra))).
    intros [H | [H | H]]; [unfold len in H; simpl in H; lia | apply H; reflexivity | lia].
Defined.

(** ** [opposite], [length] and [normal] together *)

(** X22. [opposite] is its own inverse and keeps the [length]; [normal] of
    the opposite vector is the opposite of [normal]; and for a scale
    [s >= 0], normalising a second time to the same scale changes nothing.
    None of these calls raises. *)
Theorem normal_commutes_with_opposite :
  forall (v : Vec2) (s : Number),
    opposite (opposite v) = v /\
    length (opposite v) = length v /\
    exists w : Vec2,
      normal v s = Ok w /\
      normal (opposite v) s = Ok (opposite w) /\
      (0 <= s -> normal w s = Ok w).
Proof.
  intros v s.
  split; [destruct v; unfold opposite; simpl; apply vec_eq; ring |].
  split; [rewrite !length_norm, norm_opposite; reflexivity |].
  destruct (Req_dec_T (norm v) 0) as [Hz | Hnz].
  - exists (0, 0). split; [apply normal_zero, Hz |].
    split; [| intros _; apply normal_zero, norm_zero_iff; reflexivity].
    rewrite normal_zero by (rewrite norm_opposite; exact Hz).
    apply f_equal. unfold opposite. simpl. apply vec_eq; ring.
  - exists (fst v / norm v * s, snd v / norm v * s).
    split; [apply normal_nonzero, Hnz |]. split.
    + rewrite normal_nonzero by (rewrite norm_opposite; exact Hnz).
      rewrite norm_opposite. apply f_equal. destruct v as [x y]. unfold opposite.
      cbn [fst snd]. apply vec_eq; field; exact Hnz.
    + intros Hs. pose proof (normal_norm v s Hnz) as Hw.
      rewrite Rabs_pos_eq in Hw by exact Hs.
      destruct (Req_dec_T s 0) as [Hs0 | Hs0].
      * rewrite normal_zero by (rewrite Hw; exact Hs0).
        apply f_equal. subst s. apply vec_eq; ring.
      * rewrite normal_nonzero by (rewrite Hw; exact Hs0).
        rewrite Hw. cbn [fst snd]. apply f_equal. apply vec_eq; field; split; assumption.
Qed.

(** ** [Bezier.add_point] *)

Lemma getitem_app_left {A : Type} (l l' : list A) (i : Z) (x : A) :
  (0 <= i)%Z -> getitem l i = Ok x -> getitem (l ++ l') i = Ok x.
Proof.
  intros Hi. unfold getitem.
  destruct (Z.ltb_spec i 0) as [Hneg | _]; [lia |].
  destruct (Z.ltb_spec i 0) as [Hneg | _]; [lia |].
  destruct (nth_error l (Z.to_nat i)) as [y |] eqn:Hy; [| discriminate].
  intros H. inversion H. subst y.
  rewrite nth_error_app1 by (apply nth_error_Some; rewrite Hy; discriminate).
  rewrite Hy. reflexivity.
Qed.

Lemma getitem_app_new {A : Type} (l : list A) (x : A) :
  getitem (l ++ [x]) (-1)%Z = Ok x /\ getitem (l ++ [x]) (len l) = Ok x.
Proof.
  split.
  - rewrite (getitem_last (l ++ [x]) x) by (intros H; destruct l; discriminate).
    rewrite last_last. reflexivity.
  - unfold getitem, len.
    destruct (Z.ltb_spec (Z.of_nat (List.length l)) 0) as [Hneg | _]; [lia |].
    destruct (Z.ltb_spec (Z.of_nat (List.length l)) 0) as [Hneg | _]; [lia |].
    rewrite Nat2Z.id, nth_error_app2 by lia. rewrite Nat.sub_diag. reflexivity.
Qed.

(** X23. [add_point] appends [Point(x, y, dist)] at the end: the curve has
    one point more, the new point is read back at index [-1] and at the old
    length, every point read at a non-negative index before is still read
    there, the mode is kept, and the anchors gain [(x, y)] at the end. *)
Theorem add_point_appends :
  forall (b : Bezier) (x y dist : Number),
    len (_points (Bezier_add_point b x y dist)) = (len (_points b) + 1)%Z /\
    Bezier_getitem (Bezier_add_point b x y dist) (-1) = Ok (Point_init x y dist) /\
    Bezier_getitem (Bezier_add_point b x y dist) (len (_points b)) =
      Ok (Point_init x y dist) /\
    (forall (i : Z) (p : Point),
       (0 <= i)%Z -> Bezier_getitem b i = Ok p ->
       Bezier_getitem (Bezier_add_point b x y dist) i = Ok p) /\
    Bezier_mode (Bezier_add_point b x y dist) = Bezier_mode b /\
    Bezier_bake_pos_points (Bezier_add_point b x y dist) =
      Bezier_bake_pos_points b ++ [(x, y)].
Proof.
  intros b x y dist. unfold Bezier_getitem, Bezier_add_point. cbn [_points].
  split; [unfold len; rewrite length_app; simpl; lia |].
  split; [apply getitem_app_new |]. split; [apply getitem_app_new |].
  split; [intros i p Hi Hp; apply getitem_app_left; assumption |].
  split; [reflexivity |].
  rewrite !bake_pos_points_map. cbn [_points]. rewrite map_app. reflexivity.
Qed.

Lemma Bezier_find_point_loop_app (is_cubic : bool) (location : Vec2) (margin : R)
    (l' : list Point) :
  forall (l : list Point) (a : nat),
    Bezier_find_point_loop is_cubic (enumerate_from a (l ++ l')) location margin =
    match Bezier_find_point_loop is_cubic (enumerate_from a l) location margin with
    | Some hit => Some hit
    | None => Bezier_find_point_loop is_cubic
                (enumerate_from (a + List.length l) l') location margin
    end.
Proof.
  induction l as [| p l IH]; intros a.
  - simpl. rewrite Nat.add_0_r. reflexivity.
  - rewrite <- app_comm_cons, !enumerate_from_cons. cbn [Bezier_find_point_loop].
    replace (a + List.length (p :: l))%nat with (S a + List.length l)%nat
      by (simpl; lia).
    destruct (Point_find_point p location margin) as [[pty ofs] |]; [| apply IH].
    destruct (negb is_cubic && PointType_eqb pty PT_CTRL_END); [apply IH | reflexivity].
Qed.

(** X24. Adding a point never changes a hit: when [find_point] returned a
    hit before [add_point], it returns the same index, part and offset
    after it; when it returned [None], the result after it is the hit test
    of the new point alone, reported at the index of the new point. *)
Theorem add_point_keeps_hits :
  forall (b : Bezier) (x y dist : Number) (location : Vec2) (margin : Number),
    Bezier_find_point (Bezier_add_point b x y dist) location margin =
    match Bezier_find_point b location margin with
    | Some hit => Some hit
    | None =>
        Bezier_find_point_loop (_is_cubic b)
          [(len (_points b), Point_init x y dist)] location margin
    end.
Proof.
  intros b x y dist location margin.
  unfold Bezier_find_point, Bezier_add_point. cbn [_points _is_cubic].
  rewrite !enumerate_enumerate_from, Bezier_find_point_loop_app. reflexivity.
Qed.

(** ** The mode of a [Bezier] *)

(** X25. Setting the mode and reading it back gives the mode that was set;
    setting the mode it already has leaves the curve as it is.  A mode
    switch keeps the points and the anchors, and it never turns a curve
    that can be baked into one that cannot, nor the reverse: [bake_curve]
    returns a curve after the switch exactly when it did before. *)
Theorem mode_switch_keeps_points_and_bakeability :
  forall (b : Bezier) (m : BezierMode) (resolution : Z),
    Bezier_mode (Bezier_set_mode b m) = m /\
    Bezier_set_mode b (Bezier_mode b) = b /\
    _points (Bezier_set_mode b m) = _points b /\
    Bezier_bake_pos_points (Bezier_set_mode b m) = Bezier_bake_pos_points b /\
    ((exists out, Bezier_bake_curve (Bezier_set_mode b m) resolution = Ok out) <->
     (exists out, Bezier_bake_curve b resolution = Ok out)).
Proof.
  intros b m resolution.
  split; [destruct m; reflexivity |].
  split; [destruct b as [pts c]; destruct c; reflexivity |].
  split; [reflexivity |]. split; [reflexivity |].
  rewrite (proj1 (bake_curve_cases (Bezier_set_mode b m) resolution)).
  rewrite (proj1 (bake_curve_cases b resolution)). reflexivity.
Qed.

(** ** The event loop of the demo *)

Lemma replace_nth_length {A : Type} (x : A) :
  forall (l : list A) (n : nat), List.length (replace_nth n l x) = List.length l.
Proof.
  induction l as [| h t IH]; intros n; [destruct n; reflexivity |].
  destruct n; simpl; [reflexivity | rewrite IH; reflexivity].
Qed.

Lemma replace_nth_shape (p' : Point) :
  forall (l : list Point) (n : nat) (p : Point),
    nth_error l n = Some p -> same_shape p p' ->
    Forall2 same_shape l (replace_nth n l p').
Proof.
  assert (Hrefl : forall l : list Point, Forall2 same_shape l l).
  { induction l; constructor; [repeat split | assumption]. }
  induction l as [| h t IH]; intros n p Hn Hp; [destruct n; discriminate |].
  destruct n; simpl in *.
  - inversion Hn. subst. constructor; [exact Hp | apply Hrefl].
  - constructor; [repeat split | apply (IH n p Hn Hp)].
Qed.

Lemma baked_items_shape (c : bool) (last : Z) (i : Z) (p q : Point) :
  same_shape p q -> baked_items c last (i, p) = baked_items c last (i, q).
Proof.
  intros (Hpos & Hbegin & Hend). unfold baked_items.
  rewrite Hpos, Hbegin, Hend. reflexivity.
Qed.

Lemma flat_map_enumerate_shape (c : bool) (last : Z) (l l' : list Point) :
  Forall2 same_shape l l' ->
  forall a : nat,
    flat_map (baked_items c last) (enumerate_from a l) =
    flat_map (baked_items c last) (enumerate_from a l').
Proof.
  induction 1 as [| p q l l' Hpq Hrest IH]; intros a; [reflexivity |].
  rewrite !enumerate_from_cons. cbn [flat_map].
  rewrite (baked_items_shape c last _ p q Hpq), IH. reflexivity.
Qed.

Lemma bake_curve_same_shape (l l' : list Point) (c : bool) (resolution : Z) :
  Forall2 same_shape l l' ->
  Bezier_bake_curve {| _points := l'; _is_cubic := c |} resolution =
  Bezier_bake_curve {| _points := l; _is_cubic := c |} resolution.
Proof.
  intros Hshape. unfold Bezier_bake_curve. rewrite !bake_points_items.
  cbn [_points _is_cubic]. rewrite !enumerate_enumerate_from.
  assert (Hlen : len l' = len l)
    by (unfold len; rewrite (Forall2_length Hshape); reflexivity).
  rewrite Hlen, (flat_map_enumerate_shape c (len l - 1) l l' Hshape 0).
  reflexivity.
Qed.

Lemma with_point_in_range (b : Bezier) (i : Z) (method : Point -> result Point) :
  (0 <= i < len (_points b))%Z ->
  (forall p, exists p', method p = Ok p') ->
  exists (p p' : Point),
    nth_error (_points b) (Z.to_nat i) = Some p /\
    method p = Ok p' /\
    with_point b i method =
      Ok {| _points := replace_nth (Z.to_nat i) (_points b) p';
            _is_cubic := _is_cubic b |}.
Proof.
  intros Hi Htotal. unfold with_point, with_item, getitem.
  destruct (Z.ltb_spec i 0) as [Hneg | _]; [lia |].
  destruct (Z.ltb_spec i 0) as [Hneg | _]; [lia |].
  destruct (nth_error (_points b) (Z.to_nat i)) as [p |] eqn:Hp.
  - destruct (Htotal p) as [p' Hp']. exists p, p'.
    split; [reflexivity |]. split; [exact Hp' |].
    cbn [bind]. rewrite Hp'. reflexivity.
  - apply nth_error_None in Hp. unfold len in Hi. lia.
Qed.

Lemma Bezier_find_point_index (b : Bezier) (location : Vec2) (margin : R)
    (i : Z) (pty : PointType) (ofs : Vec2) :
  Bezier_find_point b location margin = Some (i, pty, ofs) ->
  (0 <= i < len (_points b))%Z.
Proof.
  unfold Bezier_find_point. rewrite enumerate_enumerate_from. intros H.
  destruct (Bezier_find_point_loop_found _ _ _ _ _ _ _ _ H) as (k & p & Hi & Hk & _).
  assert ((k < List.length (_points b))%nat)
    by (apply nth_error_Some; rewrite Hk; discriminate).
  unfold len. lia.
Qed.

Lemma bake_curve_length (b : Bezier) (resolution : Z) (out : list Vec2) :
  (2 <= len (_points b))%Z -> (3 <= resolution)%Z ->
  Bezier_bake_curve b resolution = Ok out ->
  len out = ((len (_points b) - 1) * resolution + 1)%Z.
Proof.
  intros Hn Hres. unfold Bezier_bake_curve.
  destruct (_is_cubic b) eqn:Hmode.
  - pose proof (bake_points_cubic_length b Hmode Hn) as Hlen.
    assert (H4 : (4 <= len (Bezier_bake_points b))%Z) by lia.
    assert (Hmod : ((len (Bezier_bake_points b) - 4) mod 3 = 0)%Z).
    { rewrite Hlen.
      replace (3 * len (_points b) - 2 - 4)%Z with ((len (_points b) - 2) * 3)%Z by lia.
      apply Z.mod_mul. lia. }
    pose proof (cubic_steps _ H4 Hmod) as Hsteps.
    rewrite (cubic_valid _ _ H4 Hmod Hres). intros H. inversion H.
    rewrite baked_len by lia. nia.
  - assert (Hne : _points b <> [])
      by (intros Hnil; rewrite Hnil in Hn; unfold len in Hn; simpl in Hn; lia).
    pose proof (bake_points_quadratic_length b Hmode Hne) as Hlen.
    assert (Hodd : (len (Bezier_bake_points b) mod 2 = 1)%Z).
    { rewrite Hlen.
      replace (2 * len (_points b) - 1)%Z with (1 + (len (_points b) - 1) * 2)%Z by lia.
      rewrite Z.mod_add by lia. reflexivity. }
    pose proof (odd_steps _ Hodd) as Hsteps.
    rewrite (quadratic_valid _ _ Hodd Hres ltac:(lia)). intros H. inversion H.
    rewrite baked_len by lia. nia.
Qed.

Lemma abstracted_refresh_invariant (st : Demo) :
  abstracted_pending st ->
  exists st' : Demo, abstracted_refresh st = Ok st' /\ abstracted_invariant st'.
Proof.
  destruct st as [done bezier resolution curve dragging pt_index pt_last pt_type
                    offset update update_curve].
  unfold abstracted_pending, abstracted_invariant, abstracted_refresh.
  cbn [st_bezier st_resolution st_pt_index st_pt_last st_update_curve st_curve st_update].
  intros (Hlen & Hres & Hidx & Hlast & Hcurve).
  destruct update_curve.
  - destruct (proj2 (proj1 (bake_curve_cases bezier resolution))) as [out Hout];
      [lia |].
    rewrite Hout. cbn [bind]. rewrite orb_true_r. eexists. split; [reflexivity |].
    cbn [st_bezier st_resolution st_pt_index st_pt_last st_update_curve st_curve
         st_update]. repeat split; assumption.
  - cbn [bind]. rewrite orb_false_r. destruct update; eexists; (split; [reflexivity |]);
      cbn [st_bezier st_resolution st_pt_index st_pt_last st_update_curve st_curve
           st_update]; repeat split; auto.
Qed.

Lemma with_point_pending (b : Bezier) (i : Z) (method : Point -> result Point) :
  len (_points b) = 4%Z -> (0 <= i < 4)%Z ->
  (forall p, exists p', method p = Ok p') ->
  exists b' : Bezier,
    with_point b i method = Ok b' /\
    len (_points b') = 4%Z /\
    _is_cubic b' = _is_cubic b /\
    ((forall p p', method p = Ok p' -> same_shape p p') ->
     forall resolution, Bezier_bake_curve b' resolution = Bezier_bake_curve b resolution).
Proof.
  intros Hlen Hi Htotal.
  destruct (with_point_in_range b i method ltac:(lia) Htotal) as (p & p' & Hp & Hm & Hw).
  eexists. split; [exact Hw |]. cbn [_points _is_cubic].
  split; [unfold len in *; rewrite replace_nth_length; exact Hlen |].
  split; [reflexivity |].
  intros Hshape resolution.
  rewrite (bake_curve_same_shape (_points b) _ (_is_cubic b) resolution
             (replace_nth_shape p' _ _ p Hp (Hshape p p' Hm))).
  destruct b. reflexivity.
Qed.

Lemma abstracted_event_pending (st : Demo) (ev : Event) :
  abstracted_invariant st ->
  exists st' : Demo, abstracted_event st ev = Ok st' /\ abstracted_pending st'.
Proof.
  destruct st as [done bezier resolution curve dragging pt_index pt_last pt_type
                    offset update update_curve].
  unfold abstracted_invariant, abstracted_pending.
  cbn [st_bezier st_resolution st_pt_index st_pt_last st_update_curve st_curve st_update].
  intros (Hlen & Hres & Hidx & Hlast & Hcurve & Hupd & Hupdc). subst update update_curve.
  assert (Hkeep : exists st' : Demo,
             Ok (mkDemo done bezier resolution curve dragging pt_index pt_last pt_type
                        offset false false) = Ok st' /\
             len (_points (st_bezier st')) = 4%Z /\
             (3 <= st_resolution st')%Z /\ (st_pt_index st' < 4)%Z /\
             (st_pt_last st' < 4)%Z /\
             (st_update_curve st' = false ->
              Bezier_bake_curve (st_bezier st') (st_resolution st') = Ok (st_curve st'))).
  { eexists. split; [reflexivity |]. cbn. repeat split; auto. }
  assert (Hmode : forall m : PointMode,
             (0 <= pt_last)%Z ->
             exists st' : Demo,
               (bezier' <- with_point bezier pt_last (set_point_mode m) ;;
                Ok (mkDemo done bezier' resolution curve dragging pt_index pt_last
                           pt_type offset false false)) = Ok st' /\
               len (_points (st_bezier st')) = 4%Z /\
               (3 <= st_resolution st')%Z /\ (st_pt_index st' < 4)%Z /\
               (st_pt_last st' < 4)%Z /\
               (st_update_curve st' = false ->
                Bezier_bake_curve (st_bezier st') (st_resolution st') =
                  Ok (st_curve st'))).
  { intros m Hge.
    destruct (with_point_pending bezier pt_last (set_point_mode m) Hlen
                ltac:(lia)) as (b' & Hw & Hlen' & _ & Hsame).
    { intros p. eexists. reflexivity. }
    rewrite Hw. cbn [bind]. eexists. split; [reflexivity |]. cbn.
    repeat split; auto. intros _. rewrite Hsame; [exact Hcurve |].
    intros p p' Hp. inversion Hp. repeat split. }
  unfold abstracted_event. destruct ev as [| key | y | ev_pos | | |].
  - eexists. split; [reflexivity |]. cbn. repeat split; auto.
  - destruct key; try exact Hkeep.
    + eexists. split; [reflexivity |]. cbn. repeat split; auto.
    + destruct (Bezier_mode bezier); [exact Hkeep |].
      eexists. split; [reflexivity |]. cbn. repeat split; auto; try discriminate.
    + destruct (Bezier_mode bezier); [| exact Hkeep].
      eexists. split; [reflexivity |]. cbn. repeat split; auto; try discriminate.
    + destruct (Z.leb_spec 0 pt_last) as [Hge | Hlt]; [apply Hmode, Hge | exact Hkeep].
    + destruct (Z.leb_spec 0 pt_last) as [Hge | Hlt]; [apply Hmode, Hge | exact Hkeep].
    + destruct (Z.leb_spec 0 pt_last) as [Hge | Hlt]; [apply Hmode, Hge | exact Hkeep].
  - eexists. split; [reflexivity |]. cbn. repeat split; auto; try lia; try discriminate.
  - destruct dragging; cbn [negb].
    + destruct offset as [[ox oy] |]; [| exact Hkeep].
      destruct (0 <=? pt_index)%Z eqn:Hge; [| exact Hkeep]. apply Z.leb_le in Hge.
      destruct ev_pos as [mx my].
      destruct (with_point_pending bezier pt_index
                  (fun p => Point_move_point p pt_type (mx + ox, my + oy) (ox, oy))
                  Hlen ltac:(lia)) as (b' & Hw & Hlen' & _ & _).
      { intros p. destruct (move_point_part p pt_type (mx + ox, my + oy) (ox, oy))
          as (p' & Hp' & _). exists p'. exact Hp'. }
      rewrite Hw. cbn [bind]. eexists. split; [reflexivity |]. cbn.
      repeat split; auto; try discriminate.
    + destruct (Bezier_find_point bezier ev_pos 3) as [[[i ty] ofs] |] eqn:Hfind.
      * pose proof (Bezier_find_point_index _ _ _ _ _ _ Hfind) as Hi.
        eexists. split; [reflexivity |]. cbn. repeat split; auto; try lia.
      * eexists. split; [reflexivity |]. cbn. repeat split; auto; try lia.
  - destruct offset as [ofs |]; [| exact Hkeep].
    destruct (0 <=? pt_index)%Z; [| exact Hkeep].
    eexists. split; [reflexivity |]. cbn. repeat split; auto.
  - eexists. split; [reflexivity |]. cbn. repeat split; auto; try lia.
  - exact Hkeep.
Qed.

Lemma abstracted_loop_invariant (events : list Event) :
  forall st : Demo,
    abstracted_invariant st ->
    exists st' : Demo, abstracted_loop st events = Ok st' /\ abstracted_invariant st'.
Proof.
  induction events as [| ev rest IH]; intros st Hinv.
  - exists st. split; [reflexivity | exact Hinv].
  - cbn [abstracted_loop]. destruct (st_done st).
    + exists st. split; [reflexivity | exact Hinv].
    + destruct (abstracted_event_pending st ev Hinv) as (st1 & Hev & Hpend).
      destruct (abstracted_refresh_invariant st1 Hpend) as (st2 & Href & Hinv2).
      rewrite Hev. cbn [bind]. rewrite Href. cbn [bind]. apply IH, Hinv2.
Qed.

(** X26. The demo [abstracted] never raises, whatever events arrive and in
    whatever order: no [ValueError] from [bake_curve], no [IndexError] from
    [bezier[pt_index]] or [bezier[pt_last]].  After every loop body the
    curve still has its four points, the resolution is at least 3, and the
    stored curve is the bake of the current points at the current
    resolution, with [3 * resolution + 1] points. *)
Theorem abstracted_never_raises :
  forall events : list Event,
    exists st : Demo,
      abstracted events = Ok st /\
      abstracted_invariant st /\
      len (st_curve st) = (3 * st_resolution st + 1)%Z.
Proof.
  intros events. unfold abstracted.
  set (bezier := Bezier_init CUBIC _).
  assert (Hlen : len (_points bezier) = 4%Z) by reflexivity.
  destruct (proj2 (proj1 (bake_curve_cases bezier 7))) as [curve Hcurve]; [lia |].
  rewrite Hcurve. cbn [bind].
  destruct (abstracted_loop_invariant events
              (mkDemo false bezier 7 curve false (-1) (-1) PT_POSITION None false false))
    as (st & Hrun & Hinv).
  { unfold abstracted_invariant. cbn. repeat split; auto; lia. }
  exists st. split; [exact Hrun |]. split; [exact Hinv |].
  destruct Hinv as (Hn & Hres & _ & _ & Hbake & _).
  rewrite (bake_curve_length (st_bezier st) _ _ ltac:(lia) Hres Hbake). lia.
Qed.

Lemma nth_error_replace_nth {A : Type} (x : A) :
  forall (l : list A) (n : nat),
    (n < List.length l)%nat -> nth_error (replace_nth n l x) n = Some x.
Proof.
  induction l as [| h t IH]; intros n Hn; [simpl in Hn; lia |].
  destruct n; simpl in *; [reflexivity | apply IH; lia].
Qed.

Lemma getitem_found {A : Type} (l : list A) (i : Z) (x : A) :
  (0 <= i)%Z -> nth_error l (Z.to_nat i) = Some x -> getitem l i = Ok x.
Proof.
  intros Hi Hx. unfold getitem.
  destruct (Z.ltb_spec i 0) as [Hneg | _]; [lia |].
  destruct (Z.ltb_spec i 0) as [Hneg | _]; [lia |].
  rewrite Hx. reflexivity.
Qed.

(** X27. Grabbing and dragging in the demo.  When the mouse comes over a
    part of a point (a hit at location [L] with offset [ofs], which is [L]
    minus the part), the button goes down, and the mouse then moves to
    [M], the demo puts the part at [M + 2 * ofs]: it passes [M + ofs] as
    the position and [ofs] once more as the offset of [move_point].  No
    step raises, and the demo is dragging afterwards. *)
Theorem abstracted_drag_adds_offset_twice :
  forall (st : Demo) (L M : Vec2) (i : Z) (ty : PointType) (ofs : Vec2),
    abstracted_invariant st ->
    st_done st = false ->
    st_dragging st = false ->
    Bezier_find_point (st_bezier st) L 3 = Some (i, ty, ofs) ->
    exists (st' : Demo) (p p' : Point),
      abstracted_loop st [MOUSEMOTION L; MOUSEBUTTONDOWN; MOUSEMOTION M] = Ok st' /\
      Bezier_getitem (st_bezier st) i = Ok p /\
      Bezier_getitem (st_bezier st') i = Ok p' /\
      ofs = vsub L (part p ty) /\
      part p' ty = vadd M (vscale 2 ofs) /\
      st_dragging st' = true /\
      st_done st' = false.
Proof.
  intros st L M i ty ofs Hinv Hdone Hdrag Hfind.
  destruct st as [done bezier resolution curve dragging pt_index pt_last pt_type
                    offset update update_curve].
  unfold abstracted_invariant in Hinv.
  cbn [st_bezier st_resolution st_pt_index st_pt_last st_update_curve st_curve
       st_update st_done st_dragging] in *.
  destruct Hinv as (Hlen & Hres & _ & _ & Hcurve & Hupd & Hupdc).
  subst done dragging update update_curve.
  pose proof (Bezier_find_point_index _ _ _ _ _ _ Hfind) as Hi.
  destruct ofs as [ox oy]. destruct M as [mx my].
  destruct (with_point_in_range bezier i
              (fun p => Point_move_point p ty (mx + ox, my + oy) (ox, oy)) Hi)
    as (p & p' & Hp & Hmove & Hwith).
  { intros q. destruct (move_point_part q ty (mx + ox, my + oy) (ox, oy))
      as (q' & Hq' & _). exists q'. exact Hq'. }
  set (bezier' := {| _points := replace_nth (Z.to_nat i) (_points bezier) p';
                     _is_cubic := _is_cubic bezier |}) in *.
  assert (Hlen' : len (_points bezier') = 4%Z)
    by (unfold len in *; cbn [_points bezier']; rewrite replace_nth_length; exact Hlen).
  destruct (proj2 (proj1 (bake_curve_cases bezier' resolution))) as [curve' Hcurve'];
    [lia |].
  exists (mkDemo false bezier' resolution curve' true i i ty (Some (ox, oy)) false false),
    p, p'.
  split.
  { pose proof (proj2 (Z.leb_le 0 i) (proj1 Hi)) as Hle.
    cbn [abstracted_loop st_done abstracted_event negb]. rewrite Hfind.
    cbn [bind abstracted_refresh orb abstracted_loop st_done abstracted_event negb].
    rewrite Hle.
    cbn [bind abstracted_refresh orb abstracted_loop st_done abstracted_event negb].
    rewrite Hwith, Hle.
    cbn [bind abstracted_refresh orb abstracted_loop st_done abstracted_event negb].
    rewrite Hcurve'. reflexivity. }
  assert (Hlt : (Z.to_nat i < List.length (_points bezier))%nat)
    by (unfold len in Hi; lia).
  split; [apply getitem_found; [lia | exact Hp] |].
  split; [apply getitem_found; [lia | apply nth_error_replace_nth, Hlt] |].
  unfold Bezier_find_point in Hfind. rewrite enumerate_enumerate_from in Hfind.
  destruct (Bezier_find_point_loop_found _ _ _ _ _ _ _ _ Hfind)
    as (k & q & Hk & Hq & Hhit & _).
  assert (q = p).
  { simpl in Hk. subst i. rewrite Nat2Z.id in Hp. congruence. }
  subst q.
  destruct (Point_find_point_offset _ _ _ _ _ Hhit) as [Hofs _].
  split; [exact Hofs |].
  destruct (move_point_part p ty (mx + ox, my + oy) (ox, oy)) as (p'' & Hp'' & Hpart).
  assert (p'' = p') by congruence. subst p''.
  split; [| split; reflexivity].
  rewrite Hpart. unfold vadd, vscale. cbn [fst snd]. apply vec_eq; ring.
Qed.

Lemma abstracted_drag_adds_offset_twice_witness :
  exists (out : list Vec2) (st' : Demo) (p p' : Point),
    Bezier_bake_curve demo_example 7 = Ok out /\
    abstracted_loop
      (mkDemo false demo_example 7 out false (-1) (-1) PT_POSITION None false false)
      [MOUSEMOTION (21, 240); MOUSEBUTTONDOWN; MOUSEMOTION (30, 250)] = Ok st' /\
    Bezier_getitem demo_example 0 = Ok p /\
    Bezier_getitem (st_bezier st') 0 = Ok p' /\
    (21 - 20, 240 - 240) = vsub (21, 240) (part p PT_POSITION) /\
    part p' PT_POSITION = vadd (30, 250) (vscale 2 (21 - 20, 240 - 240)) /\
    st_dragging st' = true /\
    st_done st' = false.
Proof.
  destruct (proj2 (proj1 (bake_curve_cases demo_example 7))) as [out Hout];
    [unfold len; simpl; lia |].
  assert (Hhit : Bezier_find_point demo_example (21, 240) 3 =
                 Some (0%Z, PT_POSITION, (21 - 20, 240 - 240))).
  { change (Bezier_find_point_loop true
              [(0%Z, Point_init 20 240 10); (1%Z, Point_init 170 240 10);
               (2%Z, Point_init 320 240 10); (3%Z, Point_init 470 240 10)]
              (21, 240) 3 =
            Some (0%Z, PT_POSITION, (21 - 20, 240 - 240))).
    cbn [Bezier_find_point_loop].
    rewrite (Point_find_point_position (Point_init 20 240 10) 21 240 3)
      by (simpl; solve_Rabs).
    reflexivity. }
  destruct (abstracted_drag_adds_offset_twice
              (mkDemo false demo_example 7 out false (-1) (-1) PT_POSITION
                      None false false)
              (21, 240) (30, 250) 0%Z PT_POSITION (21 - 20, 240 - 240))
    as (st' & p & p' & Hrest);
    [| reflexivity | reflexivity | exact Hhit |].
  - unfold abstracted_invariant.
    cbn [st_bezier st_resolution st_pt_index st_pt_last st_update_curve st_curve
         st_update].
    split; [reflexivity |]. repeat split; try lia. exact Hout.
  - exists out, st', p, p'. split; [exact Hout | exact Hrest].
Defined.
